(** * free-coin-price-mcp: the tool handlers of [src/index.ts]

    A shallow embedding of the request handler of [src/index.ts] (the
    version with request logging) and of the parts of the JavaScript
    runtime it calls: [JSON.stringify], [JSON.parse], the argument
    schemas written with zod, and the HTTP client [axios.get].

    The definitions come first: JavaScript strings and JSON values
    with their serializer and parser; the world of a handler (console,
    clock, issued requests, exceptions); the four tool handlers, their
    argument schemas and the dispatcher; the request handler as a
    sequence of statements on a shared heap. The proofs follow. *)

From Stdlib Require Import String Ascii NArith ZArith List Lia Bool.
From stdpp Require Import base tactics option list numbers gmap.

Local Open Scope N_scope.

(** ** JavaScript strings

    A JavaScript string is a sequence of UTF-16 code units. *)

Abbreviation jsstring := (list N).

(** A source-code literal; the literals of [index.ts] are ASCII. *)
Definition lit (s : string) : jsstring :=
  map N_of_ascii (list_ascii_of_string s).

(** ** Numbers

    A Number is NaN, an infinity, a signed zero, or a finite nonzero
    value. A finite nonzero value is held as the decimal expansion that
    step 5 of [Number::toString] selects: [digits] are the digits of [s]
    and the value is [0.digits * 10^n]. Which double is nearest to a
    decimal numeral is not part of the model. *)

Inductive number : Type :=
| NaN
| Infinity (neg : bool)
| Zero (neg : bool)
| Finite (neg : bool) (digits : list N) (n : Z).

#[warnings="-register-all"]
Inductive value : Type :=
| JNull
| JBool (b : bool)
| JNum (x : number)
| JStr (s : jsstring)
| JArr (elems : list value)
| JObj (props : list (jsstring * value)).

(** *** Decimal numerals *)

Definition digit_char (d : N) : N := 48 + d.

Fixpoint decimal_fuel (fuel : nat) (x : N) : jsstring :=
  match fuel with
  | O => []
  | S f =>
      if x <? 10 then [digit_char x]
      else decimal_fuel f (x / 10) ++ [digit_char (x mod 10)]
  end.

(** [String(x)] for a non-negative integer. *)
Definition decimal (x : N) : jsstring := decimal_fuel (S (N.to_nat (N.log2 x))) x.

Definition zeros (k : nat) : jsstring := repeat 48 k.

(** [Number::toString] steps 5 to 10 for the positive value
    [0.ds * 10^n]. *)
Definition Number_toString_pos (ds : list N) (n : Z) : jsstring :=
  let k := Z.of_nat (length ds) in
  let cs := map digit_char ds in
  if ((k <=? n) && (n <=? 21))%Z then cs ++ zeros (Z.to_nat (n - k))
  else if ((0 <? n) && (n <=? 21))%Z then
    take (Z.to_nat n) cs ++ 46 :: drop (Z.to_nat n) cs
  else if ((-6 <? n) && (n <=? 0))%Z then
    48 :: 46 :: zeros (Z.to_nat (- n)) ++ cs
  else
    let e := (n - 1)%Z in
    let sign := if (0 <=? e)%Z then 43 else 45 in
    match cs with
    | [] => []
    | [c] => c :: 101 :: sign :: decimal (Z.abs_N e)
    | c :: rest => c :: 46 :: rest ++ 101 :: sign :: decimal (Z.abs_N e)
    end.

Definition Number_toString (x : number) : jsstring :=
  match x with
  | NaN => lit "NaN"
  | Infinity false => lit "Infinity"
  | Infinity true => lit "-Infinity"
  | Zero _ => lit "0"
  | Finite neg ds n =>
      (if neg then [45] else []) ++ Number_toString_pos ds n
  end.

Definition is_finite (x : number) : bool :=
  match x with
  | NaN | Infinity _ => false
  | Zero _ | Finite _ _ _ => true
  end.

(** *** QuoteJSONString *)

Definition hex_char (d : N) : N := if d <? 10 then 48 + d else 87 + d.

Definition unicode_escape (c : N) : jsstring :=
  [92; 117; hex_char (c / 4096 mod 16); hex_char (c / 256 mod 16);
   hex_char (c / 16 mod 16); hex_char (c mod 16)].

Definition is_high_surrogate (c : N) : bool := (55296 <=? c) && (c <=? 56319).
Definition is_low_surrogate (c : N) : bool := (56320 <=? c) && (c <=? 57343).

Fixpoint quote_units (s : jsstring) : jsstring :=
  match s with
  | [] => []
  | c :: r =>
      if c =? 8 then 92 :: 98 :: quote_units r
      else if c =? 9 then 92 :: 116 :: quote_units r
      else if c =? 10 then 92 :: 110 :: quote_units r
      else if c =? 12 then 92 :: 102 :: quote_units r
      else if c =? 13 then 92 :: 114 :: quote_units r
      else if c =? 34 then 92 :: 34 :: quote_units r
      else if c =? 92 then 92 :: 92 :: quote_units r
      else if c <? 32 then unicode_escape c ++ quote_units r
      else if is_high_surrogate c then
        match r with
        | c2 :: r2 =>
            if is_low_surrogate c2 then c :: c2 :: quote_units r2
            else unicode_escape c ++ quote_units r
        | [] => unicode_escape c
        end
      else if is_low_surrogate c then unicode_escape c ++ quote_units r
      else c :: quote_units r
  end.

Definition QuoteJSONString (s : jsstring) : jsstring :=
  34 :: quote_units s ++ [34].

(** *** JSON.stringify

    [JSON.stringify(v)] with no replacer and no indentation, for the
    values above (none of them is [undefined], a function or a symbol,
    so every property is serialized and the result is a string). *)

Fixpoint JSON_stringify (v : value) : jsstring :=
  match v with
  | JNull => lit "null"
  | JBool true => lit "true"
  | JBool false => lit "false"
  | JNum x => if is_finite x then Number_toString x else lit "null"
  | JStr s => QuoteJSONString s
  | JArr vs =>
      let fix elems (vs : list value) : jsstring :=
        match vs with
        | [] => []
        | [v] => JSON_stringify v
        | v :: vs' => JSON_stringify v ++ 44 :: elems vs'
        end in
      91 :: elems vs ++ [93]
  | JObj ps =>
      let fix members (ps : list (jsstring * value)) : jsstring :=
        match ps with
        | [] => []
        | [(k, v)] => QuoteJSONString k ++ 58 :: JSON_stringify v
        | (k, v) :: ps' =>
            QuoteJSONString k ++ 58 :: JSON_stringify v ++ 44 :: members ps'
        end in
      123 :: members ps ++ [125]
  end.

(** ** JSON.parse

    The parser reads a value at the head of the input and returns it
    with the rest of the input. [None] is a [SyntaxError]. *)

Definition is_ws (c : N) : bool :=
  (c =? 32) || (c =? 9) || (c =? 10) || (c =? 13).

Fixpoint skip_ws (s : jsstring) : jsstring :=
  match s with
  | c :: r => if is_ws c then skip_ws r else s
  | [] => []
  end.

Definition is_digit (c : N) : bool := (48 <=? c) && (c <=? 57).

(** The longest run of decimal digits at the head of the input, as
    digit values. *)
Fixpoint span_digits (s : jsstring) : list N * jsstring :=
  match s with
  | c :: r =>
      if is_digit c then
        let '(ds, r') := span_digits r in ((c - 48) :: ds, r')
      else ([], s)
  | [] => ([], [])
  end.

Definition horner (ds : list N) : N :=
  fold_left (fun a d => 10 * a + d) ds 0.

Fixpoint strip_leading_zeros (ds : list N) (n : Z) : list N * Z :=
  match ds with
  | d :: r => if d =? 0 then strip_leading_zeros r (n - 1)%Z else (ds, n)
  | [] => ([], n)
  end.

Fixpoint strip_trailing_zeros (ds : list N) : list N :=
  match ds with
  | [] => []
  | d :: r =>
      match strip_trailing_zeros r with
      | [] => if d =? 0 then [] else [d]
      | r' => d :: r'
      end
  end.

(** The Number denoted by the numeral with integer digits [int],
    fraction digits [frac] and exponent [e]. *)
Definition number_of_numeral (neg : bool) (int frac : list N) (e : Z) : number :=
  let '(ds, n) := strip_leading_zeros (int ++ frac) (Z.of_nat (length int) + e) in
  match strip_trailing_zeros ds with
  | [] => Zero neg
  | ds' => Finite neg ds' n
  end.

(** JSON grammar: [int] is [0] or a digit run that does not start with
    [0]. *)
Definition parse_int (s : jsstring) : option (list N * jsstring) :=
  match s with
  | c :: r =>
      if c =? 48 then Some ([0], r)
      else if is_digit c then Some (span_digits s)
      else None
  | [] => None
  end.

Definition parse_frac (s : jsstring) : option (list N * jsstring) :=
  match s with
  | c :: r =>
      if c =? 46 then
        match span_digits r with
        | ([], _) => None
        | (ds, r') => Some (ds, r')
        end
      else Some ([], s)
  | [] => Some ([], [])
  end.

Definition parse_exp_digits (neg : bool) (s : jsstring) : option (Z * jsstring) :=
  match span_digits s with
  | ([], _) => None
  | (ds, r) =>
      let e := Z.of_N (horner ds) in
      Some (if neg then (- e)%Z else e, r)
  end.

Definition parse_exp (s : jsstring) : option (Z * jsstring) :=
  match s with
  | c :: r =>
      if (c =? 101) || (c =? 69) then
        match r with
        | c2 :: r2 =>
            if c2 =? 43 then parse_exp_digits false r2
            else if c2 =? 45 then parse_exp_digits true r2
            else parse_exp_digits false r
        | [] => None
        end
      else Some (0%Z, s)
  | [] => Some (0%Z, [])
  end.

Definition parse_unsigned (neg : bool) (s1 : jsstring) : option (number * jsstring) :=
  '(int, s2) ← parse_int s1;
  '(frac, s3) ← parse_frac s2;
  '(e, s4) ← parse_exp s3;
  Some (number_of_numeral neg int frac e, s4).

Definition parse_number (s : jsstring) : option (number * jsstring) :=
  match s with
  | c :: r => if c =? 45 then parse_unsigned true r else parse_unsigned false s
  | [] => None
  end.

Definition hex_value (c : N) : option N :=
  if is_digit c then Some (c - 48)
  else if (97 <=? c) && (c <=? 102) then Some (c - 87)
  else if (65 <=? c) && (c <=? 70) then Some (c - 55)
  else None.

Definition hex4 (a b c d : N) : option N :=
  x3 ← hex_value a; x2 ← hex_value b; x1 ← hex_value c; x0 ← hex_value d;
  Some (4096 * x3 + 256 * x2 + 16 * x1 + x0).

(** The characters of a string literal after its opening quote, up to
    and including the closing quote. *)
Fixpoint parse_chars (s : jsstring) : option (jsstring * jsstring) :=
  match s with
  | [] => None
  | c :: r =>
      if c =? 34 then Some ([], r)
      else if c =? 92 then
        match r with
        | [] => None
        | e :: r1 =>
            let simple (u : N) :=
              '(cs, r') ← parse_chars r1; Some (u :: cs, r') in
            if e =? 34 then simple 34
            else if e =? 92 then simple 92
            else if e =? 47 then simple 47
            else if e =? 98 then simple 8
            else if e =? 102 then simple 12
            else if e =? 110 then simple 10
            else if e =? 114 then simple 13
            else if e =? 116 then simple 9
            else if e =? 117 then
              match r1 with
              | h3 :: h2 :: h1 :: h0 :: r2 =>
                  u ← hex4 h3 h2 h1 h0;
                  '(cs, r') ← parse_chars r2;
                  Some (u :: cs, r')
              | _ => None
              end
            else None
        end
      else if c <? 32 then None
      else '(cs, r') ← parse_chars r; Some (c :: cs, r')
  end.

(** [s] starts with the literal [w]: the rest of [s] after it. *)
Fixpoint expect (w s : jsstring) : option jsstring :=
  match w, s with
  | [], _ => Some s
  | a :: w', b :: s' => if a =? b then expect w' s' else None
  | _ :: _, [] => None
  end.

(** [CreateDataProperty] on the property list of an object under
    construction: a repeated key keeps its place and takes the new
    value. *)
Fixpoint obj_set (k : jsstring) (v : value) (ps : list (jsstring * value))
  : list (jsstring * value) :=
  match ps with
  | [] => [(k, v)]
  | (k', v') :: ps' =>
      if decide (k' = k) then (k, v) :: ps' else (k', v') :: obj_set k v ps'
  end.

Fixpoint parse_value (fuel : nat) (s : jsstring) : option (value * jsstring) :=
  match fuel with
  | O => None
  | S f =>
      match skip_ws s with
      | [] => None
      | c :: r =>
          if c =? 110 then r' ← expect (lit "ull") r; Some (JNull, r')
          else if c =? 116 then r' ← expect (lit "rue") r; Some (JBool true, r')
          else if c =? 102 then r' ← expect (lit "alse") r; Some (JBool false, r')
          else if c =? 34 then '(str, r') ← parse_chars r; Some (JStr str, r')
          else if c =? 91 then
            match skip_ws r with
            | [] => None
            | c' :: r' =>
                if c' =? 93 then Some (JArr [], r')
                else '(vs, r'') ← parse_elements f r; Some (JArr vs, r'')
            end
          else if c =? 123 then
            match skip_ws r with
            | [] => None
            | c' :: r' =>
                if c' =? 125 then Some (JObj [], r')
                else '(ps, r'') ← parse_members f [] r; Some (JObj ps, r'')
            end
          else '(x, r') ← parse_number (c :: r); Some (JNum x, r')
      end
  end
with parse_elements (fuel : nat) (s : jsstring) : option (list value * jsstring) :=
  match fuel with
  | O => None
  | S f =>
      '(v, r) ← parse_value f s;
      match skip_ws r with
      | [] => None
      | c :: r' =>
          if c =? 44 then '(vs, r'') ← parse_elements f r'; Some (v :: vs, r'')
          else if c =? 93 then Some ([v], r')
          else None
      end
  end
with parse_members (fuel : nat) (acc : list (jsstring * value)) (s : jsstring)
  : option (list (jsstring * value) * jsstring) :=
  match fuel with
  | O => None
  | S f =>
      match skip_ws s with
      | [] => None
      | q :: r0 =>
          if q =? 34 then
            '(k, r1) ← parse_chars r0;
            match skip_ws r1 with
            | [] => None
            | c1 :: r2 =>
                if c1 =? 58 then
                  '(v, r3) ← parse_value f r2;
                  match skip_ws r3 with
                  | [] => None
                  | c :: r' =>
                      if c =? 44 then parse_members f (obj_set k v acc) r'
                      else if c =? 125 then Some (obj_set k v acc, r')
                      else None
                  end
                else None
            end
          else None
      end
  end.

(** [JSON.parse(text)] with no reviver. *)
Definition JSON_parse (text : jsstring) : option value :=
  '(v, r) ← parse_value (S (length text)) text;
  match skip_ws r with
  | [] => Some v
  | _ :: _ => None
  end.


(** ** What a text written by [JSON.stringify] reads back as *)

Definition jsonify_number (x : number) : value :=
  match x with
  | NaN | Infinity _ => JNull
  | Zero _ => JNum (Zero false)
  | Finite _ _ _ => JNum x
  end.

Fixpoint jsonify (v : value) : value :=
  match v with
  | JNum x => jsonify_number x
  | JArr vs => JArr (map jsonify vs)
  | JObj ps => JObj (map (fun kv => (kv.1, jsonify kv.2)) ps)
  | _ => v
  end.

(** The digits of a finite nonzero Number: at least one, each below
    ten, no zero at either end. *)
Definition canonical_digits (ds : list N) : Prop :=
  Forall (fun d => d < 10) ds ∧ (∃ d, head ds = Some d ∧ d ≠ 0)
  ∧ (∃ d, last ds = Some d ∧ d ≠ 0).

Definition wf_number (x : number) : Prop :=
  match x with
  | Finite _ ds _ => canonical_digits ds
  | _ => True
  end.

(** The values of the model that are JavaScript values: canonical
    numbers, and objects whose property names are pairwise distinct. *)
Fixpoint wf_value (v : value) : Prop :=
  match v with
  | JNum x => wf_number x
  | JArr vs =>
      (fix all (vs : list value) : Prop :=
         match vs with [] => True | v :: vs' => wf_value v ∧ all vs' end) vs
  | JObj ps =>
      NoDup ps.*1 ∧
      (fix all (ps : list (jsstring * value)) : Prop :=
         match ps with [] => True | kv :: ps' => wf_value kv.2 ∧ all ps' end) ps
  | _ => True
  end.

(** JSON has a numeral for a Number when it is finite; negative zero
    is written as [0]. *)
Definition plain_number (x : number) : Prop :=
  match x with
  | NaN | Infinity _ | Zero true => False
  | Zero false | Finite _ _ _ => True
  end.

Fixpoint plain (v : value) : Prop :=
  match v with
  | JNum x => plain_number x
  | JArr vs =>
      (fix all (vs : list value) : Prop :=
         match vs with [] => True | v :: vs' => plain v ∧ all vs' end) vs
  | JObj ps =>
      (fix all (ps : list (jsstring * value)) : Prop :=
         match ps with [] => True | kv :: ps' => plain kv.2 ∧ all ps' end) ps
  | _ => True
  end.

(** Fuel that [parse_value] needs to read the text of [v]. *)
Fixpoint size (v : value) : nat :=
  match v with
  | JArr vs => S (list_sum (map (fun v => S (size v)) vs))
  | JObj ps => S (list_sum (map (fun kv => S (size kv.2)) ps))
  | _ => 1
  end.

(** The input after a value: the end of the text, or one of [,] [\]]
    [}]. *)
Definition terminated (rest : jsstring) : Prop :=
  match rest with
  | [] => True
  | c :: _ => c = 44 ∨ c = 93 ∨ c = 125
  end.

Section value_induction.
Variable P : value → Prop.
Hypothesis Hnull : P JNull.
Hypothesis Hbool : ∀ b, P (JBool b).
Hypothesis Hnum : ∀ x, P (JNum x).
Hypothesis Hstr : ∀ s, P (JStr s).
Hypothesis Harr : ∀ vs, Forall P vs → P (JArr vs).
Hypothesis Hobj : ∀ ps, Forall (fun kv => P kv.2) ps → P (JObj ps).

Fixpoint value_nested_ind (v : value) : P v :=
  match v with
  | JNull => Hnull
  | JBool b => Hbool b
  | JNum x => Hnum x
  | JStr s => Hstr s
  | JArr vs =>
      Harr vs ((fix go (vs : list value) : Forall P vs :=
                  match vs with
                  | [] => Forall_nil_2 P
                  | v :: vs' => Forall_cons_2 P v vs' (value_nested_ind v) (go vs')
                  end) vs)
  | JObj ps =>
      Hobj ps ((fix go (ps : list (jsstring * value)) : Forall (fun kv => P kv.2) ps :=
                  match ps with
                  | [] => Forall_nil_2 _
                  | kv :: ps' =>
                      Forall_cons_2 (fun kv => P kv.2) kv ps'
                        (value_nested_ind kv.2) (go ps')
                  end) ps)
  end.
End value_induction.

(** A character that no numeral continues with. *)
Definition stops_digits (rest : jsstring) : Prop :=
  match rest with
  | [] => True
  | c :: _ => is_digit c = false
  end.

(** The elements of an array and the members of an object as
    [JSON.stringify] joins them. *)
Fixpoint stringify_elements (vs : list value) : jsstring :=
  match vs with
  | [] => []
  | [v] => JSON_stringify v
  | v :: vs' => JSON_stringify v ++ 44 :: stringify_elements vs'
  end.

Fixpoint stringify_members (ps : list (jsstring * value)) : jsstring :=
  match ps with
  | [] => []
  | [(k, v)] => QuoteJSONString k ++ 58 :: JSON_stringify v
  | (k, v) :: ps' =>
      QuoteJSONString k ++ 58 :: JSON_stringify v ++ 44 :: stringify_members ps'
  end.

(** The text of a value starts with a character that is neither white
    space nor a closing bracket. *)
Definition opens_value (c : N) : Prop :=
  is_ws c = false ∧ c ≠ 93 ∧ c ≠ 125.

(** Reading the text of [v] gives [jsonify v] and stops right after
    it. *)
Definition reads_back (v : value) : Prop :=
  wf_value v → ∀ fuel rest, terminated rest → (size v ≤ fuel)%nat →
  parse_value fuel (JSON_stringify v ++ rest) = Some (jsonify v, rest).

(** * The handlers of [index.ts]

    ** The world a handler runs in

    A handler writes to the console, reads the clock and calls the
    upstream API; it returns or throws. *)

(** What the network gives back for a request: no response at all, or
    a status line and a body. [data] is the body as axios hands it
    over: decoded with [JSON.parse] (which reads a numeral beyond the
    range of a double, such as [1e999], as [Infinity]), or the text of
    the body as a string when it is not JSON. *)
Inductive Wire : Type :=
| NetworkFailure (message : jsstring)
| HttpResponse (status : N) (statusText : jsstring) (data : value).

(** A GET request as it leaves the process. *)
Record Request : Type := {
  url : jsstring;
  headers : list (jsstring * jsstring);
  query : list (jsstring * jsstring)
}.

(** The error object of a rejected [axios.get]. *)
Record AxiosError : Type := {
  message : jsstring;
  response_status : option N
}.

Inductive LogLine : Type :=
| console_log_line (timestamp type : jsstring) (details : value)
| console_error_line (label : jsstring) (error : AxiosError).

Record World : Type := {
  console : list LogLine;
  sent : list Request;
  ticks : nat
}.

(** What is outside the program: the environment variable read at
    start-up, the clock ([clock k] is the ISO text of the [k]-th
    reading) and the upstream API ([net k req] answers the request
    [req] issued after [k] earlier ones). *)
Record Env : Type := {
  COINGECKO_API_KEY : option jsstring;
  clock : nat → jsstring;
  net : nat → Request → Wire
}.

(** A computation returns a value or throws, and changes the world.
    [AxiosError] is the one kind of exception that the handlers can
    meet. *)
Definition M (A : Type) : Type := World → (AxiosError + A) * World.

#[global] Instance M_ret : MRet M := λ A (a : A) w, (inr a, w).

#[global] Instance M_bind : MBind M := λ A B (f : A → M B) (m : M A) w,
  match m w with
  | (inl e, w') => (inl e, w')
  | (inr a, w') => f a w'
  end.

(** [try { body } catch (error) { handler error }] *)
Definition try_catch {A : Type} (body : M A) (handler : AxiosError → M A) : M A :=
  λ w, match body w with
       | (inl e, w') => handler e w'
       | (inr a, w') => (inr a, w')
       end.

(** [new Date().toISOString()] *)
Definition toISOString (E : Env) : M jsstring :=
  λ w, (inr (clock E (ticks w)),
        {| console := console w; sent := sent w; ticks := S (ticks w) |}).

Definition write_console (l : LogLine) : M () :=
  λ w, (inr (),
        {| console := console w ++ [l]; sent := sent w; ticks := ticks w |}).

(** An object literal: a property whose value is [undefined] is left
    out when the object is serialized. *)
Definition object (fields : list (jsstring * option value)) : value :=
  JObj (omap (λ '(k, o), v ← o; Some (k, v)) fields).

(** The Number of a non-negative integer. *)
Definition Number_of_N (x : N) : number :=
  number_of_numeral false (span_digits (decimal x)).1 [] 0.

(** [logRequest(type, details)]: the console line holds the value that
    [JSON.stringify(details, null, 2)] prints. *)
Definition logRequest (E : Env) (type : jsstring) (details : value) : M () :=
  timestamp ← toISOString E;
  write_console (console_log_line timestamp type details).

Definition console_error (label : jsstring) (error : AxiosError) : M () :=
  write_console (console_error_line label error).

(** ** axios *)

Record AxiosResponse : Type := {
  status : N;
  statusText : jsstring;
  data : value
}.

(** The entries with a defined value: axios sends neither a header
    nor a query parameter whose value is [undefined]. *)
Definition defined (fields : list (jsstring * option jsstring))
  : list (jsstring * jsstring) :=
  omap (λ '(k, o), v ← o; Some (k, v)) fields.

(** [settle]: the promise is resolved when the status is in 200..299
    (the default [validateStatus]) and rejected otherwise; without a
    response it is rejected with the network error. *)
Definition settle (answer : Wire) : AxiosError + AxiosResponse :=
  match answer with
  | NetworkFailure msg => inl {| message := msg; response_status := None |}
  | HttpResponse st txt d =>
      if (200 <=? st) && (st <? 300) then
        inr {| status := st; statusText := txt; data := d |}
      else
        inl {| message := lit "Request failed with status code " ++ decimal st;
               response_status := Some st |}
  end.

(** [axios.get(url, { headers, params })]: one request, no retry. *)
Definition axios_get (E : Env) (url : jsstring)
    (headers params : list (jsstring * option jsstring)) : M AxiosResponse :=
  λ w,
    let req := {| url := url; headers := defined headers; query := defined params |} in
    (settle (net E (length (sent w)) req),
     {| console := console w; sent := sent w ++ [req]; ticks := ticks w |}).

(** ** Content envelopes *)

Record ContentBlock : Type := { type : jsstring; text : jsstring }.

Record ContentEnvelope : Type := { content : list ContentBlock }.

Definition block_value (b : ContentBlock) : value :=
  JObj [(lit "type", JStr (type b)); (lit "text", JStr (text b))].

Definition envelope_value (r : ContentEnvelope) : value :=
  JObj [(lit "content", JArr (map block_value (content r)))].

(** ** Module constants *)

Definition API_HOST : jsstring := lit "https://api.coingecko.com/api/v3".

Definition CG_HEADER (E : Env) : list (jsstring * option jsstring) :=
  [(lit "x-cg-demo-api-key", COINGECKO_API_KEY E);
   (lit "accept", Some (lit "application/json"))].

Definition header_value (h : list (jsstring * option jsstring)) : value :=
  object (map (λ '(k, o), (k, JStr <$> o)) h).

(** ** The four tool handlers *)

Definition hello (E : Env) : M ContentEnvelope :=
  logRequest E (lit "TOOL_CALL")
    (JObj [(lit "tool", JStr (lit "hello")); (lit "args", JObj [])]);;
  let result := {| content := [{| type := lit "text"; text := lit "hello" |}] |} in
  logRequest E (lit "TOOL_RESPONSE")
    (JObj [(lit "tool", JStr (lit "hello")); (lit "result", envelope_value result)]);;
  mret result.

Definition getSupportedCurrencies (E : Env) : M ContentEnvelope :=
  logRequest E (lit "TOOL_CALL") (JObj [(lit "tool", JStr (lit "getSupportedCurrencies")); (lit "args", JObj [])]);;
  try_catch
    (t0 ← toISOString E;
     logRequest E (lit "EXTERNAL_API_CALL")
       (object [(lit "url", Some (JStr (API_HOST ++ lit "/simple/supported_vs_currencies")));
                (lit "method", Some (JStr (lit "GET")));
                (lit "headers", Some (header_value (CG_HEADER E)));
                (lit "timestamp", Some (JStr t0))]);;
     response ← axios_get E (API_HOST ++ lit "/simple/supported_vs_currencies") (CG_HEADER E) [];
     t1 ← toISOString E;
     logRequest E (lit "EXTERNAL_API_RESPONSE")
       (JObj [(lit "url", JStr (API_HOST ++ lit "/simple/supported_vs_currencies"));
              (lit "status", JNum (Number_of_N (status response)));
              (lit "statusText", JStr (statusText response));
              (lit "dataLength",
               JNum (Number_of_N (N.of_nat (length (JSON_stringify (data response))))));
              (lit "timestamp", JStr t1)]);;
     let v := JSON_stringify (data response) in
     let result := {| content := [{| type := lit "text"; text := v |}] |} in
     logRequest E (lit "TOOL_RESPONSE")
       (JObj [(lit "tool", JStr (lit "getSupportedCurrencies")); (lit "result", envelope_value result)]);;
     mret result)
    (λ error,
     t2 ← toISOString E;
     logRequest E (lit "EXTERNAL_API_ERROR")
       (JObj [(lit "url", JStr (API_HOST ++ lit "/simple/supported_vs_currencies"));
              (lit "error", JStr (message error));
              (lit "timestamp", JStr t2)]);;
     console_error (lit "Error fetching supported currencies:") error;;
     let v := JSON_stringify (JObj [(lit "error", JStr (lit "Failed to fetch supported currencies"))]) in
     let result := {| content := [{| type := lit "text"; text := v |}] |} in
     logRequest E (lit "TOOL_ERROR_RESPONSE")
       (JObj [(lit "tool", JStr (lit "getSupportedCurrencies")); (lit "result", envelope_value result)]);;
     mret result).

(** The validated arguments of [getCoinPrice]: [ids], [names] and
    [symbols] may be [undefined]. *)
Record CoinPriceArgs : Type := {
  ids : option jsstring;
  names : option jsstring;
  symbols : option jsstring;
  vs_currencies : jsstring
}.

(** The object [{ ids, names, symbols, vs_currencies }], built twice in
    the handler: as [args] and as [params]. *)
Definition getCoinPrice_params (a : CoinPriceArgs)
  : list (jsstring * option jsstring) :=
  [(lit "ids", ids a); (lit "names", names a); (lit "symbols", symbols a);
   (lit "vs_currencies", Some (vs_currencies a))].

Definition strings_value (fields : list (jsstring * option jsstring)) : value :=
  object (map (λ '(k, o), (k, JStr <$> o)) fields).

Definition getCoinPrice (E : Env) (a : CoinPriceArgs) : M ContentEnvelope :=
  let args := strings_value (getCoinPrice_params a) in
  let params := getCoinPrice_params a in
  logRequest E (lit "TOOL_CALL")
    (JObj [(lit "tool", JStr (lit "getCoinPrice")); (lit "args", args)]);;
  try_catch
    (t0 ← toISOString E;
     logRequest E (lit "EXTERNAL_API_CALL")
       (object [(lit "url", Some (JStr (API_HOST ++ lit "/simple/price")));
                (lit "method", Some (JStr (lit "GET")));
                (lit "headers", Some (header_value (CG_HEADER E)));
                (lit "params", Some (strings_value params));
                (lit "timestamp", Some (JStr t0))]);;
     response ← axios_get E (API_HOST ++ lit "/simple/price") (CG_HEADER E) params;
     t1 ← toISOString E;
     logRequest E (lit "EXTERNAL_API_RESPONSE")
       (JObj [(lit "url", JStr (API_HOST ++ lit "/simple/price"));
              (lit "status", JNum (Number_of_N (status response)));
              (lit "statusText", JStr (statusText response));
              (lit "dataLength",
               JNum (Number_of_N (N.of_nat (length (JSON_stringify (data response))))));
              (lit "timestamp", JStr t1)]);;
     let v := JSON_stringify (data response) in
     let result := {| content := [{| type := lit "text"; text := v |}] |} in
     logRequest E (lit "TOOL_RESPONSE")
       (JObj [(lit "tool", JStr (lit "getCoinPrice")); (lit "result", envelope_value result)]);;
     mret result)
    (λ error,
     t2 ← toISOString E;
     logRequest E (lit "EXTERNAL_API_ERROR")
       (JObj [(lit "url", JStr (API_HOST ++ lit "/simple/price"));
              (lit "error", JStr (message error));
              (lit "timestamp", JStr t2)]);;
     console_error (lit "Error fetching coin prices:") error;;
     let v := JSON_stringify (JObj [(lit "error", JStr (lit "Failed to fetch coin prices"))]) in
     let result := {| content := [{| type := lit "text"; text := v |}] |} in
     logRequest E (lit "TOOL_ERROR_RESPONSE")
       (JObj [(lit "tool", JStr (lit "getCoinPrice")); (lit "result", envelope_value result)]);;
     mret result).

Definition getPublicCompaniesHoldings (E : Env) (coin_id : jsstring) : M ContentEnvelope :=
  let args := JObj [(lit "coin_id", JStr coin_id)] in
  logRequest E (lit "TOOL_CALL")
    (JObj [(lit "tool", JStr (lit "getPublicCompaniesHoldings")); (lit "args", args)]);;
  try_catch
    (t0 ← toISOString E;
     logRequest E (lit "EXTERNAL_API_CALL")
       (object [(lit "url", Some (JStr (API_HOST ++ lit "/companies/public_treasury/" ++ coin_id)));
                (lit "method", Some (JStr (lit "GET")));
                (lit "headers", Some (header_value (CG_HEADER E)));
                (lit "coin_id", Some (JStr coin_id));
                (lit "timestamp", Some (JStr t0))]);;
     response ← axios_get E (API_HOST ++ lit "/companies/public_treasury/" ++ coin_id) (CG_HEADER E) [];
     t1 ← toISOString E;
     logRequest E (lit "EXTERNAL_API_RESPONSE")
       (JObj [(lit "url", JStr (API_HOST ++ lit "/companies/public_treasury/" ++ coin_id));
              (lit "status", JNum (Number_of_N (status response)));
              (lit "statusText", JStr (statusText response));
              (lit "dataLength",
               JNum (Number_of_N (N.of_nat (length (JSON_stringify (data response))))));
              (lit "timestamp", JStr t1)]);;
     let v := JSON_stringify (data response) in
     let result := {| content := [{| type := lit "text"; text := v |}] |} in
     logRequest E (lit "TOOL_RESPONSE")
       (JObj [(lit "tool", JStr (lit "getPublicCompaniesHoldings")); (lit "result", envelope_value result)]);;
     mret result)
    (λ error,
     t2 ← toISOString E;
     logRequest E (lit "EXTERNAL_API_ERROR")
       (JObj [(lit "url", JStr (API_HOST ++ lit "/companies/public_treasury/" ++ coin_id));
              (lit "error", JStr (message error));
              (lit "timestamp", JStr t2)]);;
     console_error (lit "Error fetching public companies holdings:") error;;
     let v := JSON_stringify (JObj [(lit "error", JStr (lit "Failed to fetch public companies holdings"))]) in
     let result := {| content := [{| type := lit "text"; text := v |}] |} in
     logRequest E (lit "TOOL_ERROR_RESPONSE")
       (JObj [(lit "tool", JStr (lit "getPublicCompaniesHoldings")); (lit "result", envelope_value result)]);;
     mret result).

(** The three proxy handlers have the same body up to the tool name,
    the logged arguments, the URL, the request parameters, the extra
    field of the [EXTERNAL_API_CALL] line and the two error texts. *)
Definition proxy (E : Env) (tool : jsstring) (args : value)
    (url : jsstring) (call_fields : list (jsstring * option value))
    (params : list (jsstring * option jsstring))
    (error_label error_text : jsstring) : M ContentEnvelope :=
  logRequest E (lit "TOOL_CALL") (JObj [(lit "tool", JStr tool); (lit "args", args)]);;
  try_catch
    (t0 ← toISOString E;
     logRequest E (lit "EXTERNAL_API_CALL")
       (object ([(lit "url", Some (JStr url));
                 (lit "method", Some (JStr (lit "GET")));
                 (lit "headers", Some (header_value (CG_HEADER E)))]
                ++ call_fields ++ [(lit "timestamp", Some (JStr t0))]));;
     response ← axios_get E url (CG_HEADER E) params;
     t1 ← toISOString E;
     logRequest E (lit "EXTERNAL_API_RESPONSE")
       (JObj [(lit "url", JStr url);
              (lit "status", JNum (Number_of_N (status response)));
              (lit "statusText", JStr (statusText response));
              (lit "dataLength",
               JNum (Number_of_N (N.of_nat (length (JSON_stringify (data response))))));
              (lit "timestamp", JStr t1)]);;
     let v := JSON_stringify (data response) in
     let result := {| content := [{| type := lit "text"; text := v |}] |} in
     logRequest E (lit "TOOL_RESPONSE")
       (JObj [(lit "tool", JStr tool); (lit "result", envelope_value result)]);;
     mret result)
    (λ error,
     t2 ← toISOString E;
     logRequest E (lit "EXTERNAL_API_ERROR")
       (JObj [(lit "url", JStr url);
              (lit "error", JStr (message error));
              (lit "timestamp", JStr t2)]);;
     console_error error_label error;;
     let v := JSON_stringify (JObj [(lit "error", JStr error_text)]) in
     let result := {| content := [{| type := lit "text"; text := v |}] |} in
     logRequest E (lit "TOOL_ERROR_RESPONSE")
       (JObj [(lit "tool", JStr tool); (lit "result", envelope_value result)]);;
     mret result).

(** ** Argument schemas

    A zod type reads an input that may be [undefined] and gives the
    parsed value or the code of the issue. Of the issues zod would
    list, the first is kept. *)

Inductive ZodIssueCode : Type := invalid_type | invalid_enum_value.

Record ZodIssue : Type := { code : ZodIssueCode; path : list jsstring }.

Definition ZodType (A : Type) : Type := option value → ZodIssueCode + A.

#[global] Instance sum_ret {E : Type} : MRet (sum E) := λ A, inr.

#[global] Instance sum_bind {E : Type} : MBind (sum E) := λ A B f m,
  match m with
  | inl e => inl e
  | inr a => f a
  end.

(** [z.string()] *)
Definition z_string : ZodType jsstring := λ input,
  match input with
  | Some (JStr s) => inr s
  | _ => inl invalid_type
  end.

(** [t.optional()] *)
Definition z_optional {A : Type} (t : ZodType A) : ZodType (option A) := λ input,
  match input with
  | None => inr None
  | Some _ => a ← t input; inr (Some a)
  end.

(** [t.default(d)] *)
Definition z_default {A : Type} (t : ZodType A) (d : A) : ZodType A := λ input,
  match input with
  | None => inr d
  | Some _ => t input
  end.

(** [z.enum(options)] *)
Definition z_enum (options : list jsstring) : ZodType jsstring := λ input,
  match input with
  | Some (JStr s) =>
      if bool_decide (s ∈ options) then inr s else inl invalid_enum_value
  | _ => inl invalid_type
  end.

(** [obj[k]] on the properties of an object. *)
Fixpoint get (ps : list (jsstring * value)) (k : jsstring) : option value :=
  match ps with
  | [] => None
  | (k', v) :: ps' => if decide (k' = k) then Some v else get ps' k
  end.

Definition field {A : Type} (ps : list (jsstring * value)) (k : jsstring)
    (t : ZodType A) : ZodIssue + A :=
  match t (get ps k) with
  | inl c => inl {| code := c; path := [k] |}
  | inr a => inr a
  end.

(** [z.object(shape)] for the three shapes of [index.ts]: the
    arguments must be an object; properties outside the shape are
    dropped. *)

(** [{}] *)
Definition empty_schema (arguments : option value) : ZodIssue + () :=
  match arguments with
  | Some (JObj _) => inr ()
  | _ => inl {| code := invalid_type; path := [] |}
  end.

Definition getCoinPrice_schema (arguments : option value) : ZodIssue + CoinPriceArgs :=
  match arguments with
  | Some (JObj ps) =>
      ids ← field ps (lit "ids") (z_optional z_string);
      names ← field ps (lit "names") (z_optional z_string);
      symbols ← field ps (lit "symbols") (z_optional z_string);
      vs_currencies ← field ps (lit "vs_currencies") (z_default z_string (lit "usd"));
      inr {| ids := ids; names := names; symbols := symbols;
             vs_currencies := vs_currencies |}
  | _ => inl {| code := invalid_type; path := [] |}
  end.

Definition getPublicCompaniesHoldings_schema (arguments : option value)
  : ZodIssue + jsstring :=
  match arguments with
  | Some (JObj ps) =>
      field ps (lit "coin_id") (z_enum [lit "bitcoin"; lit "ethereum"])
  | _ => inl {| code := invalid_type; path := [] |}
  end.

(** ** The tool registry and the dispatcher *)

Record RegisteredTool : Type := {
  description : jsstring;
  Args : Type;
  inputSchema : option value → ZodIssue + Args;
  callback : Args → M ContentEnvelope
}.

(** Modelled from the spec: [McpServer.tool] of the protocol runtime,
    which is not among the sources. Section 4.1: [register] adds a
    ToolDefinition to the registry of the current session; registering
    a name twice is last-write-wins. *)
Definition McpServer_tool (name : jsstring) (t : RegisteredTool)
    (tools : gmap jsstring RegisteredTool) : gmap jsstring RegisteredTool :=
  <[name := t]> tools.

Definition hello_tool (E : Env) : RegisteredTool :=
  {| description := lit "A simple hello tool";
     inputSchema := empty_schema;
     callback := λ _, hello E |}.

Definition getSupportedCurrencies_tool (E : Env) : RegisteredTool :=
  {| description := lit "Get supported currencies from CoinGecko";
     inputSchema := empty_schema;
     callback := λ _, getSupportedCurrencies E |}.

Definition getCoinPrice_tool (E : Env) : RegisteredTool :=
  {| description := lit "Get coin prices from CoinGecko";
     inputSchema := getCoinPrice_schema;
     callback := getCoinPrice E |}.

Definition getPublicCompaniesHoldings_tool (E : Env) : RegisteredTool :=
  {| description := lit "Get public companies Bitcoin or Ethereum holdings";
     inputSchema := getPublicCompaniesHoldings_schema;
     callback := getPublicCompaniesHoldings E |}.

(** The four [server.tool(...)] calls of the request handler, on the
    registry of a new server. *)
Definition register_tools (E : Env) : gmap jsstring RegisteredTool :=
  McpServer_tool (lit "getPublicCompaniesHoldings") (getPublicCompaniesHoldings_tool E)
  (McpServer_tool (lit "getCoinPrice") (getCoinPrice_tool E)
  (McpServer_tool (lit "getSupportedCurrencies") (getSupportedCurrencies_tool E)
  (McpServer_tool (lit "hello") (hello_tool E) ∅))).

(** A protocol-level error: the call is answered with an error, not
    with a content envelope. *)
Inductive McpError : Type :=
| ToolNotFound (name : jsstring)
| InvalidArguments (name : jsstring) (issue : ZodIssue).

(** Modelled from the spec: the dispatch of a tool call by the protocol
    runtime, which is not among the sources. Sections 4.2 and 7: an
    unknown tool and a failed argument validation are protocol-level
    errors, and a failed validation short-circuits the handler. *)
Definition callTool (tools : gmap jsstring RegisteredTool) (name : jsstring)
    (arguments : option value) : M (McpError + ContentEnvelope) :=
  match tools !! name with
  | None => mret (inl (ToolNotFound name))
  | Some t =>
      match inputSchema t arguments with
      | inl issue => mret (inl (InvalidArguments name issue))
      | inr a => result ← callback t a; mret (inr result)
      end
  end.

(** ** The calls of the three proxy tools *)

Inductive ProxyCall : Type :=
| CallSupportedCurrencies
| CallCoinPrice (a : CoinPriceArgs)
| CallPublicCompaniesHoldings (coin_id : jsstring).

Definition run_proxy (E : Env) (c : ProxyCall) : M ContentEnvelope :=
  match c with
  | CallSupportedCurrencies => getSupportedCurrencies E
  | CallCoinPrice a => getCoinPrice E a
  | CallPublicCompaniesHoldings coin_id => getPublicCompaniesHoldings E coin_id
  end.

(** The request that the handler of [c] passes to [axios.get]. *)
Definition request_of (E : Env) (c : ProxyCall) : Request :=
  match c with
  | CallSupportedCurrencies =>
      {| url := API_HOST ++ lit "/simple/supported_vs_currencies";
         headers := defined (CG_HEADER E); query := [] |}
  | CallCoinPrice a =>
      {| url := API_HOST ++ lit "/simple/price";
         headers := defined (CG_HEADER E);
         query := defined (getCoinPrice_params a) |}
  | CallPublicCompaniesHoldings coin_id =>
      {| url := API_HOST ++ lit "/companies/public_treasury/" ++ coin_id;
         headers := defined (CG_HEADER E); query := [] |}
  end.

(** The answer of the upstream API to the call [c] made in world [w]. *)
Definition answer (E : Env) (w : World) (c : ProxyCall) : Wire :=
  net E (length (sent w)) (request_of E c).

(** The messages that the specification gives for a failed call. *)
Definition failure_message (c : ProxyCall) : jsstring :=
  match c with
  | CallSupportedCurrencies => lit "Failed to fetch supported currencies"
  | CallCoinPrice _ => lit "Failed to fetch coin prices"
  | CallPublicCompaniesHoldings _ => lit "Failed to fetch public companies holdings"
  end.

(** The label of the [console.error] line of each handler. *)
Definition error_label (c : ProxyCall) : jsstring :=
  match c with
  | CallSupportedCurrencies => lit "Error fetching supported currencies:"
  | CallCoinPrice _ => lit "Error fetching coin prices:"
  | CallPublicCompaniesHoldings _ => lit "Error fetching public companies holdings:"
  end.

(** An envelope with one text block. *)
Definition text_envelope (t : jsstring) : ContentEnvelope :=
  {| content := [{| type := lit "text"; text := t |}] |}.

(** The envelope that section 4.4 calls [failure(context, error)]. *)
Definition failure_envelope (context : jsstring) : ContentEnvelope :=
  text_envelope (JSON_stringify (JObj [(lit "error", JStr context)])).

(** "A non-2xx status or a network failure". *)
Definition upstream_fails (a : Wire) : Prop :=
  match a with
  | NetworkFailure _ => True
  | HttpResponse st _ _ => ¬ (200 ≤ st < 300)
  end.

(** The bodies that the upstream API answers with are JavaScript
    values. *)
Definition wf_upstream (E : Env) : Prop :=
  ∀ k req st txt d, net E k req = HttpResponse st txt d → wf_value d.

(** ** Sample inputs *)

Definition sample_world : World := {| console := []; sent := []; ticks := 0 |}.

(** An environment whose upstream API gives the same answer to every
    request. *)
Definition constant_env (a : Wire) : Env :=
  {| COINGECKO_API_KEY := Some (lit "demo-key");
     clock := λ _, lit "2025-01-01T00:00:00.000Z";
     net := λ _ _, a |}.

Definition service_unavailable : Wire :=
  HttpResponse 503 (lit "Service Unavailable") JNull.

(** [{"bitcoin":{"usd":67187.33}}] *)
Definition sample_prices : value :=
  JObj [(lit "bitcoin", JObj [(lit "usd", JNum (Finite false [6; 7; 1; 8; 7; 3; 3] 5))])].

Definition no_arguments : CoinPriceArgs :=
  {| ids := None; names := None; symbols := None; vs_currencies := lit "usd" |}.

Definition sample_env : Env :=
  constant_env (HttpResponse 200 (lit "OK") sample_prices).

Definition connection_refused : Wire :=
  NetworkFailure (lit "connect ECONNREFUSED").

(** A body such as [1e999], which axios decodes to [Infinity]. *)
Definition overflowing_body : Wire :=
  HttpResponse 200 (lit "OK") (JNum (Infinity false)).

(** A call of one of the four tools, with validated arguments. *)
Inductive ToolCall : Type :=
| CallHello
| CallProxy (c : ProxyCall).

Definition run_tool (E : Env) (c : ToolCall) : M ContentEnvelope :=
  match c with
  | CallHello => hello E
  | CallProxy c => run_proxy E c
  end.

(** * Sessions

    The handler of [POST /mcp], statement by statement, on a heap of
    objects that all the requests in flight share. *)


























(** * The handlers before request logging

    The first version of [index.ts]: [hello], [getSupportedCurrencies]
    and [getCoinPrice] with the same schemas, the same requests and the
    same envelopes, and no [logRequest]. *)

Definition hello_v1 : M ContentEnvelope :=
  mret {| content := [{| type := lit "text"; text := lit "hello" |}] |}.

Definition getSupportedCurrencies_v1 (E : Env) : M ContentEnvelope :=
  try_catch
    (response ← axios_get E (API_HOST ++ lit "/simple/supported_vs_currencies")
                  (CG_HEADER E) [];
     let v := JSON_stringify (data response) in
     mret {| content := [{| type := lit "text"; text := v |}] |})
    (λ error,
     console_error (lit "Error fetching supported currencies:") error;;
     let v := JSON_stringify
                (JObj [(lit "error", JStr (lit "Failed to fetch supported currencies"))]) in
     mret {| content := [{| type := lit "text"; text := v |}] |}).

Definition getCoinPrice_v1 (E : Env) (a : CoinPriceArgs) : M ContentEnvelope :=
  try_catch
    (response ← axios_get E (API_HOST ++ lit "/simple/price") (CG_HEADER E)
                  [(lit "ids", ids a); (lit "names", names a);
                   (lit "symbols", symbols a);
                   (lit "vs_currencies", Some (vs_currencies a))];
     let v := JSON_stringify (data response) in
     mret {| content := [{| type := lit "text"; text := v |}] |})
    (λ error,
     console_error (lit "Error fetching coin prices:") error;;
     let v := JSON_stringify (JObj [(lit "error", JStr (lit "Failed to fetch coin prices"))]) in
     mret {| content := [{| type := lit "text"; text := v |}] |}).

(** A call of one of the three tools of the first version, and the
    same call in the second. *)
Inductive ToolCall_v1 : Type :=
| CallHello_v1
| CallSupportedCurrencies_v1
| CallCoinPrice_v1 (a : CoinPriceArgs).

Definition run_tool_v1 (E : Env) (c : ToolCall_v1) : M ContentEnvelope :=
  match c with
  | CallHello_v1 => hello_v1
  | CallSupportedCurrencies_v1 => getSupportedCurrencies_v1 E
  | CallCoinPrice_v1 a => getCoinPrice_v1 E a
  end.

Definition with_logging (c : ToolCall_v1) : ToolCall :=
  match c with
  | CallHello_v1 => CallHello
  | CallSupportedCurrencies_v1 => CallProxy CallSupportedCurrencies
  | CallCoinPrice_v1 a => CallProxy (CallCoinPrice a)
  end.

(** * Observations on a run *)

(** The requests that a tool call issues. *)
Definition requests_of (E : Env) (c : ToolCall) : list Request :=
  match c with
  | CallHello => []
  | CallProxy c => [request_of E c]
  end.

(** What a handler makes of an answer: the payload of a response that
    axios accepts, nothing otherwise. *)
Definition payload (a : Wire) : option value :=
  match settle a with
  | inr response => Some (data response)
  | inl _ => None
  end.

(** The kind of a console line: the [type] of a [logRequest] line, or
    [console.error]. *)
Definition line_kind (l : LogLine) : jsstring :=
  match l with
  | console_log_line _ type _ => type
  | console_error_line _ _ => lit "console.error"
  end.

Definition success_trace : list jsstring :=
  [lit "TOOL_CALL"; lit "EXTERNAL_API_CALL"; lit "EXTERNAL_API_RESPONSE";
   lit "TOOL_RESPONSE"].

Definition failure_trace : list jsstring :=
  [lit "TOOL_CALL"; lit "EXTERNAL_API_CALL"; lit "EXTERNAL_API_ERROR";
   lit "console.error"; lit "TOOL_ERROR_RESPONSE"].

(** An environment without an API key, whose upstream API gives the
    same answer to every request. *)
Definition keyless_env (a : Wire) : Env :=
  {| COINGECKO_API_KEY := None;
     clock := λ k, lit "tick " ++ decimal (N.of_nat k);
     net := λ _ _, a |}.

Definition created : Wire := HttpResponse 201 (lit "Created") sample_prices.

(** An argument that [z.string().optional()] and
    [z.string().default(...)] accept: absent, or a string. *)
Definition string_or_absent (o : option value) : Prop :=
  o = None ∨ ∃ s, o = Some (JStr s).


(** * The text that [logRequest] prints

    [JSON.stringify(details, null, 2)]: every element and member on a
    line of its own, two more spaces at each level, a space after the
    colon of a member; an empty array is [[]] and an empty object is
    [{}]. *)

Definition indent (depth : nat) : jsstring := repeat 32 (2 * depth).

Fixpoint JSON_stringify_indented (depth : nat) (v : value) : jsstring :=
  match v with
  | JArr [] => lit "[]"
  | JArr vs =>
      let fix elems (vs : list value) : jsstring :=
        match vs with
        | [] => []
        | [v] => JSON_stringify_indented (S depth) v
        | v :: vs' =>
            JSON_stringify_indented (S depth) v
              ++ 44 :: 10 :: indent (S depth) ++ elems vs'
        end in
      91 :: 10 :: indent (S depth) ++ elems vs ++ 10 :: indent depth ++ [93]
  | JObj [] => lit "{}"
  | JObj ps =>
      let fix members (ps : list (jsstring * value)) : jsstring :=
        match ps with
        | [] => []
        | [(k, v)] => QuoteJSONString k ++ 58 :: 32 :: JSON_stringify_indented (S depth) v
        | (k, v) :: ps' =>
            QuoteJSONString k ++ 58 :: 32 :: JSON_stringify_indented (S depth) v
              ++ 44 :: 10 :: indent (S depth) ++ members ps'
        end in
      123 :: 10 :: indent (S depth) ++ members ps ++ 10 :: indent depth ++ [125]
  | _ => JSON_stringify v
  end.

(** The two arguments of the [console.log] call of [logRequest]. *)
Definition logRequest_output (l : LogLine) : list jsstring :=
  match l with
  | console_log_line timestamp type details =>
      [lit "[" ++ timestamp ++ lit "] [" ++ type ++ lit "]";
       JSON_stringify_indented 0 details]
  | console_error_line _ _ => []
  end.

Definition indented_elements (depth : nat) : list value → jsstring :=
  fix elems (vs : list value) : jsstring :=
    match vs with
    | [] => []
    | [v] => JSON_stringify_indented (S depth) v
    | v :: vs' =>
        JSON_stringify_indented (S depth) v
          ++ 44 :: 10 :: indent (S depth) ++ elems vs'
    end.

Definition indented_members (depth : nat) : list (jsstring * value) → jsstring :=
  fix members (ps : list (jsstring * value)) : jsstring :=
    match ps with
    | [] => []
    | [(k, v)] => QuoteJSONString k ++ 58 :: 32 :: JSON_stringify_indented (S depth) v
    | (k, v) :: ps' =>
        QuoteJSONString k ++ 58 :: 32 :: JSON_stringify_indented (S depth) v
          ++ 44 :: 10 :: indent (S depth) ++ members ps'
    end.

(** The input after a numeral: the end of the text, or a character
    that is not a digit, a point or an exponent mark. *)
Definition ends_numeral (rest : jsstring) : Prop :=
  match rest with
  | [] => True
  | c :: _ => is_digit c = false ∧ c ≠ 46 ∧ c ≠ 101 ∧ c ≠ 69
  end.

(** The input after a value of an indented text: the end, a comma, a
    closing bracket or a line break. *)
Definition follows (rest : jsstring) : Prop :=
  match rest with
  | [] => True
  | c :: _ => c = 44 ∨ c = 93 ∨ c = 125 ∨ c = 10
  end.

Definition reads_back_indented (v : value) : Prop :=
  wf_value v → ∀ depth fuel rest, follows rest → (size v ≤ fuel)%nat →
  parse_value fuel (JSON_stringify_indented depth v ++ rest) = Some (jsonify v, rest).

(** The details of the TOOL_CALL line of [getCoinPrice] for a call
    with [ids] alone. *)
Definition sample_details : value :=
  JObj [(lit "tool", JStr (lit "getCoinPrice"));
        (lit "args", JObj [(lit "ids", JStr (lit "bitcoin,ethereum"));
                           (lit "vs_currencies", JStr (lit "usd"))]);
        (lit "sizes", JArr [JNum (Finite false [1; 2] 2); JArr []; JNull])].

(** No code unit of the text is a control character. *)
Definition printable (s : jsstring) : Prop := Forall (λ c, 32 ≤ c) s.

(** The details of a [logRequest] line are a JavaScript value. *)
Definition log_details_wf (l : LogLine) : Prop :=
  match l with
  | console_log_line _ _ details => wf_value details
  | console_error_line _ _ => True
  end.

(** * Proofs *)

(** ** Examples *)

Example toString_decimal :
  Number_toString (Finite false [6; 7; 1; 8; 7; 3; 3] 5) = lit "67187.33".
Proof. reflexivity. Qed.

Example toString_small :
  Number_toString (Finite true [1; 2; 3] (-3)) = lit "-0.000123".
Proof. reflexivity. Qed.

Example toString_exponent :
  Number_toString (Finite false [1] (-6)) = lit "1e-7"
  ∧ Number_toString (Finite false [1; 2] 22) = lit "1.2e+21"
  ∧ Number_toString (Finite false [1; 2] 21) = lit "120000000000000000000".
Proof. repeat split. Qed.

Example stringify_failure :
  JSON_stringify (JObj [(lit "error", JStr (lit "Failed to fetch coin prices"))])
  = lit "{" ++ [34] ++ lit "error" ++ [34] ++ lit ":" ++ [34]
      ++ lit "Failed to fetch coin prices" ++ [34] ++ lit "}".
Proof. reflexivity. Qed.

Example stringify_escapes :
  JSON_stringify (JStr [10; 34; 55357; 56832; 55357])
  = [34; 92; 110; 92; 34; 55357; 56832] ++ lit "\ud83d" ++ [34].
Proof. reflexivity. Qed.

Example parse_numbers :
  JSON_parse (lit " [ 1 , 2.50e+3, -0, 0.001E-2 ] ")
  = Some (JArr [JNum (Finite false [1] 1); JNum (Finite false [2; 5] 4);
                JNum (Zero true); JNum (Finite false [1] (-4))]).
Proof. reflexivity. Qed.

Example parse_rejects :
  JSON_parse (lit "hello") = None ∧ JSON_parse (lit "[01]") = None
  ∧ JSON_parse (lit "[1,]") = None ∧ JSON_parse (lit "{} x") = None.
Proof. repeat split. Qed.

Arguments is_digit : simpl never.
Arguments is_ws : simpl never.
Arguments digit_char : simpl never.
Arguments hex_char : simpl never.
Arguments hex_value : simpl never.

(** ** Decimal numerals *)

Lemma is_digit_digit_char d : d < 10 → is_digit (digit_char d) = true.
Proof. unfold is_digit, digit_char. intros. apply andb_true_iff. split; apply N.leb_le; lia. Qed.

Lemma digit_char_value d : digit_char d - 48 = d.
Proof. unfold digit_char. lia. Qed.

Lemma span_digits_app ds rest :
  Forall (fun d => d < 10) ds → stops_digits rest →
  span_digits (map digit_char ds ++ rest) = (ds, rest).
Proof.
  intros Hds Hrest. induction Hds as [|d ds Hd _ IH]; cbn [map app span_digits].
  - destruct rest as [|c r]; [done|]. cbn [span_digits]. by rewrite Hrest.
  - rewrite is_digit_digit_char by done. rewrite IH. by rewrite digit_char_value.
Qed.

Lemma horner_snoc ds d : horner (ds ++ [d]) = 10 * horner ds + d.
Proof. unfold horner. by rewrite fold_left_app. Qed.

Lemma decimal_fuel_S f x :
  decimal_fuel (S f) x =
  if x <? 10 then [digit_char x]
  else decimal_fuel f (x / 10) ++ [digit_char (x mod 10)].
Proof. reflexivity. Qed.

Lemma decimal_fuel_digits fuel x :
  x < 2 ^ N.of_nat (S fuel) →
  ∃ ds, decimal_fuel (S fuel) x = map digit_char ds
        ∧ Forall (fun d => d < 10) ds ∧ ds ≠ [] ∧ horner ds = x.
Proof.
  revert x. induction fuel as [|f IH]; intros x Hx.
  - change (2 ^ N.of_nat 1) with 2 in Hx.
    exists [x]. rewrite decimal_fuel_S. destruct (N.ltb_spec x 10); [|lia].
    split; [done|]. split; [by constructor; [lia|]|]. split; [done|].
    unfold horner; simpl; lia.
  - rewrite decimal_fuel_S. destruct (N.ltb_spec x 10) as [Hlt|Hge].
    + exists [x]. split; [done|]. split; [by constructor|]. split; [done|].
      unfold horner; simpl; lia.
    + destruct (IH (x / 10)) as (ds & Heq & Hds & Hne & Hval).
      { rewrite Nat2N.inj_succ, N.pow_succ_r' in Hx.
        apply N.Div0.div_lt_upper_bound. lia. }
      exists (ds ++ [x mod 10]). rewrite Heq, map_app.
      split; [done|]. split; [|split].
      * apply Forall_app. split; [done|]. constructor; [|done].
        apply N.mod_lt. lia.
      * by destruct ds.
      * rewrite horner_snoc, Hval. symmetry. apply N.div_mod. lia.
Qed.

Lemma decimal_digits x :
  ∃ ds, decimal x = map digit_char ds
        ∧ Forall (fun d => d < 10) ds ∧ ds ≠ [] ∧ horner ds = x.
Proof.
  apply decimal_fuel_digits. rewrite Nat2N.inj_succ, N2Nat.id.
  destruct (N.eq_dec x 0) as [->|Hx]; [done|].
  apply N.log2_spec. lia.
Qed.

(** ** Numerals *)

Lemma zeros_digits m : zeros m = map digit_char (repeat 0 m).
Proof. unfold zeros. by rewrite map_repeat. Qed.

Lemma Forall_repeat_digit m : Forall (fun d => d < 10) (repeat 0 m).
Proof. induction m; constructor; [lia|done]. Qed.

Lemma strip_leading_zeros_repeat m ds n :
  strip_leading_zeros (repeat 0 m ++ ds) n
  = strip_leading_zeros ds (n - Z.of_nat m).
Proof.
  revert n. induction m as [|m IH]; intros n; cbn [repeat app strip_leading_zeros].
  - f_equal. lia.
  - change (0 =? 0) with true. cbv iota. rewrite IH. f_equal. lia.
Qed.

Lemma strip_leading_zeros_head d tl n :
  d ≠ 0 → strip_leading_zeros (d :: tl) n = (d :: tl, n).
Proof. intros Hd. cbn [strip_leading_zeros]. by destruct (N.eqb_spec d 0). Qed.

Lemma strip_trailing_zeros_repeat ds m :
  strip_trailing_zeros (ds ++ repeat 0 m) = strip_trailing_zeros ds.
Proof.
  induction ds as [|d ds IH]; cbn [app strip_trailing_zeros].
  - induction m as [|m IHm]; [done|]. cbn [repeat strip_trailing_zeros].
    by rewrite IHm.
  - by rewrite IH.
Qed.

Lemma strip_trailing_zeros_last ds d :
  last ds = Some d → d ≠ 0 → strip_trailing_zeros ds = ds.
Proof.
  intros Hlast Hd. induction ds as [|a ds IH]; [done|].
  cbn [strip_trailing_zeros]. destruct ds as [|b ds].
  - cbn [strip_trailing_zeros]. simpl in Hlast. simplify_eq.
    by destruct (N.eqb_spec d 0).
  - rewrite IH by done. done.
Qed.

Lemma canonical_digits_cons ds :
  canonical_digits ds →
  ∃ d tl, ds = d :: tl ∧ d ≠ 0 ∧ d < 10 ∧ Forall (fun d => d < 10) tl.
Proof.
  intros (Hall & (d & Hhd & Hd) & _). destruct ds as [|d' tl]; [done|].
  simpl in Hhd. simplify_eq. inversion Hall; subst. by exists d, tl.
Qed.

(** The Number of a numeral whose digits are those of [ds] between
    [a] leading and [b] trailing zeros. *)
Lemma number_of_numeral_canonical neg int frac e ds a b n :
  canonical_digits ds →
  int ++ frac = repeat 0 a ++ ds ++ repeat 0 b →
  (Z.of_nat (length int) + e - Z.of_nat a = n)%Z →
  number_of_numeral neg int frac e = Finite neg ds n.
Proof.
  intros Hc Heq Hn. unfold number_of_numeral. rewrite Heq.
  rewrite strip_leading_zeros_repeat, Hn.
  destruct (canonical_digits_cons ds Hc) as (d & tl & -> & Hd & _).
  change ((d :: tl) ++ repeat 0 b) with (d :: (tl ++ repeat 0 b)).
  rewrite strip_leading_zeros_head by done.
  change (d :: (tl ++ repeat 0 b)) with ((d :: tl) ++ repeat 0 b).
  rewrite strip_trailing_zeros_repeat.
  destruct Hc as (_ & _ & (l & Hl & Hl0)).
  by rewrite (strip_trailing_zeros_last _ l).
Qed.

Lemma terminated_stops_digits rest : terminated rest → stops_digits rest.
Proof. destruct rest as [|c r]; [done|]. by intros [->|[->| ->]]. Qed.

Lemma parse_int_zero rest : parse_int (48 :: rest) = Some ([0], rest).
Proof. reflexivity. Qed.

Lemma parse_int_digits d tl rest :
  d ≠ 0 → Forall (fun d => d < 10) (d :: tl) → stops_digits rest →
  parse_int (map digit_char (d :: tl) ++ rest) = Some (d :: tl, rest).
Proof.
  intros Hd Hall Hrest. rewrite <- (span_digits_app (d :: tl) rest) by done.
  cbn [map app parse_int]. inversion Hall; subst.
  destruct (N.eqb_spec (digit_char d) 48) as [H48|_].
  { unfold digit_char in H48. lia. }
  by rewrite is_digit_digit_char.
Qed.

Lemma parse_frac_none rest : terminated rest → parse_frac rest = Some ([], rest).
Proof. destruct rest as [|c r]; [done|]. by intros [->|[->| ->]]. Qed.

Lemma parse_frac_digits d tl rest :
  Forall (fun d => d < 10) (d :: tl) → stops_digits rest →
  parse_frac (46 :: map digit_char (d :: tl) ++ rest) = Some (d :: tl, rest).
Proof.
  intros Hall Hrest. cbn [parse_frac]. change (46 =? 46) with true. cbv iota.
  by rewrite span_digits_app.
Qed.

Lemma parse_exp_none rest : terminated rest → parse_exp rest = Some (0%Z, rest).
Proof. destruct rest as [|c r]; [done|]. by intros [->|[->| ->]]. Qed.

Lemma parse_exp_decimal (e : Z) rest :
  stops_digits rest →
  parse_exp (101 :: (if (0 <=? e)%Z then 43 else 45) :: decimal (Z.abs_N e) ++ rest)
  = Some (e, rest).
Proof.
  intros Hrest. destruct (decimal_digits (Z.abs_N e)) as (ds & -> & Hds & Hne & Hval).
  cbn [parse_exp]. change ((101 =? 101) || (101 =? 69)) with true. cbv iota.
  destruct (Z.leb_spec 0 e) as [He|He].
  - change (43 =? 43) with true. cbv iota. unfold parse_exp_digits.
    rewrite span_digits_app by done. destruct ds as [|d ds]; [done|].
    rewrite Hval. do 2 f_equal. lia.
  - change (45 =? 43) with false. change (45 =? 45) with true. cbv iota.
    unfold parse_exp_digits.
    rewrite span_digits_app by done. destruct ds as [|d ds]; [done|].
    rewrite Hval. do 2 f_equal. lia.
Qed.

Lemma parse_int_canonical ds rest :
  (∃ d, head ds = Some d ∧ d ≠ 0) → Forall (fun d => d < 10) ds →
  stops_digits rest →
  parse_int (map digit_char ds ++ rest) = Some (ds, rest).
Proof.
  intros (d & Hhd & Hd) Hall Hrest. destruct ds as [|d' tl]; [done|].
  simpl in Hhd. simplify_eq. by apply parse_int_digits.
Qed.

Lemma parse_frac_canonical ds rest :
  ds ≠ [] → Forall (fun d => d < 10) ds → stops_digits rest →
  parse_frac (46 :: map digit_char ds ++ rest) = Some (ds, rest).
Proof. intros Hne Hall Hrest. destruct ds; [done|]. by apply parse_frac_digits. Qed.

Lemma parse_frac_exponent rest : parse_frac (101 :: rest) = Some ([], 101 :: rest).
Proof. reflexivity. Qed.

Lemma stops_digits_dot r : stops_digits (46 :: r).
Proof. reflexivity. Qed.

Lemma stops_digits_e r : stops_digits (101 :: r).
Proof. reflexivity. Qed.

Ltac step_bind := cbn [mbind option_bind].

Section toString_forms.
Variables (neg : bool) (ds rest : jsstring).
Hypothesis Hc : canonical_digits ds.
Hypothesis Hrest : terminated rest.

Let Hstop : stops_digits rest := terminated_stops_digits rest Hrest.
Let Hall : Forall (fun d => d < 10) ds := proj1 Hc.
Let Hhd : ∃ d, head ds = Some d ∧ d ≠ 0 := proj1 (proj2 Hc).

(** Step 6: the digits followed by zeros. *)
Lemma parse_integer_form m :
  parse_unsigned neg ((map digit_char ds ++ zeros m) ++ rest)
  = Some (Finite neg ds (Z.of_nat (length ds) + Z.of_nat m), rest).
Proof.
  unfold parse_unsigned. rewrite zeros_digits, <- map_app.
  rewrite parse_int_canonical;
    [| |by apply Forall_app; auto using Forall_repeat_digit|done].
  2:{ destruct Hhd as (d0 & Hd0 & ?). exists d0. split; [|done].
      by destruct ds. }
  step_bind. rewrite parse_frac_none by done. step_bind.
  rewrite parse_exp_none by done. step_bind. f_equal. f_equal.
  apply (number_of_numeral_canonical _ _ _ _ ds 0 m); [done|by rewrite app_nil_r|].
  rewrite length_app, repeat_length. lia.
Qed.

(** Step 7: a decimal point after the first [i] digits. *)
Lemma parse_point_form i :
  (0 < i < length ds)%nat →
  parse_unsigned neg
    ((take i (map digit_char ds) ++ 46 :: drop i (map digit_char ds)) ++ rest)
  = Some (Finite neg ds (Z.of_nat i), rest).
Proof.
  intros Hi. unfold parse_unsigned.
  rewrite firstn_map, skipn_map, <- app_assoc. cbn [app].
  rewrite parse_int_canonical.
  - step_bind. rewrite parse_frac_canonical.
    + step_bind. rewrite parse_exp_none by done. step_bind. f_equal. f_equal.
      apply (number_of_numeral_canonical _ _ _ _ ds 0 0); [done| |].
      * by rewrite take_drop, app_nil_r.
      * rewrite length_take. lia.
    + intros Hnil. apply (f_equal length) in Hnil. rewrite length_drop in Hnil.
      simpl in Hnil. lia.
    + by apply Forall_drop.
    + done.
  - destruct Hhd as (d0 & Hd0 & ?). exists d0. split; [|done].
    destruct ds; [done|]. destruct i; [lia|done].
  - by apply Forall_take.
  - apply stops_digits_dot.
Qed.

(** Step 8: [0.], zeros, the digits. *)
Lemma parse_small_form m :
  parse_unsigned neg ((48 :: 46 :: zeros m ++ map digit_char ds) ++ rest)
  = Some (Finite neg ds (- Z.of_nat m), rest).
Proof.
  unfold parse_unsigned. cbn [app]. rewrite parse_int_zero. step_bind.
  rewrite zeros_digits, <- map_app, parse_frac_canonical.
  - step_bind. rewrite parse_exp_none by done. step_bind. f_equal. f_equal.
    apply (number_of_numeral_canonical _ _ _ _ ds (S m) 0); [done| |].
    + by rewrite app_nil_r.
    + simpl. lia.
  - destruct Hhd as (d0 & Hd0 & ?). by destruct ds, m.
  - apply Forall_app; auto using Forall_repeat_digit.
  - done.
Qed.

(** Steps 9 and 10: one digit, the others after a point, an exponent. *)
Lemma parse_exponent_form (e : Z) :
  parse_unsigned neg
    (match map digit_char ds with
     | [] => []
     | [c] => c :: 101 :: (if (0 <=? e)%Z then 43 else 45) :: decimal (Z.abs_N e)
     | c :: rest0 =>
         c :: 46 :: rest0 ++ 101 :: (if (0 <=? e)%Z then 43 else 45)
           :: decimal (Z.abs_N e)
     end ++ rest)
  = Some (Finite neg ds (e + 1), rest).
Proof.
  destruct (canonical_digits_cons ds Hc) as (d & tl & Hds & Hd & Hd10 & Htl).
  unfold parse_unsigned.
  assert (Hint : ∀ r, stops_digits r →
            parse_int (digit_char d :: r) = Some ([d], r)).
  { intros r Hr. by apply (parse_int_digits d [] r); [|constructor|]. }
  assert (Hnum : ∀ frac, d :: frac = ds →
            number_of_numeral neg [d] frac e = Finite neg ds (e + 1)).
  { intros frac Hfrac.
    apply (number_of_numeral_canonical _ _ _ _ ds 0 0); [done| |simpl; lia].
    by rewrite app_nil_r, <- Hfrac. }
  rewrite Hds. cbn [map]. destruct tl as [|d1 tl]; cbn [map app].
  - rewrite Hint by apply stops_digits_e. step_bind.
    rewrite parse_frac_exponent. step_bind.
    rewrite parse_exp_decimal by done. step_bind.
    rewrite Hnum by done. by rewrite Hds.
  - rewrite Hint by apply stops_digits_dot. step_bind.
    rewrite <- app_assoc. cbn [app].
    change (46 :: digit_char d1 :: map digit_char tl ++ ?r)
      with (46 :: map digit_char (d1 :: tl) ++ r).
    rewrite (parse_frac_digits d1 tl) by (done || apply stops_digits_e).
    step_bind. rewrite parse_exp_decimal by done. step_bind.
    rewrite Hnum by done. by rewrite Hds.
Qed.

Lemma parse_unsigned_toString n :
  parse_unsigned neg (Number_toString_pos ds n ++ rest) = Some (Finite neg ds n, rest).
Proof.
  pose proof (parse_exponent_form (n - 1)) as Hexp.
  replace (n - 1 + 1)%Z with n in Hexp by lia.
  assert (1 ≤ length ds)%nat as Hlen.
  { destruct Hhd as (d & Hd & _). destruct ds; [done|simpl; lia]. }
  unfold Number_toString_pos.
  destruct (Z.leb_spec (Z.of_nat (length ds)) n) as [Hkn|Hkn];
    destruct (Z.leb_spec n 21) as [H21|H21];
    destruct (Z.ltb_spec 0 n) as [H0|H0];
    destruct (Z.ltb_spec (-6) n) as [H6|H6];
    destruct (Z.leb_spec n 0) as [Hn0|Hn0];
    cbn [andb]; try lia; try exact Hexp.
  - rewrite parse_integer_form. do 3 f_equal. lia.
  - rewrite parse_point_form by lia. do 3 f_equal. lia.
  - rewrite parse_small_form. do 3 f_equal. lia.
Qed.
End toString_forms.

(** ** String literals *)

Lemma hex_value_hex_char d : d < 16 → hex_value (hex_char d) = Some d.
Proof.
  intros Hd. unfold hex_value, hex_char, is_digit.
  destruct (N.ltb_spec d 10).
  - replace ((48 <=? 48 + d) && (48 + d <=? 57)) with true.
    + f_equal. lia.
    + symmetry. apply andb_true_iff. split; apply N.leb_le; lia.
  - replace ((48 <=? 87 + d) && (87 + d <=? 57)) with false.
    + replace ((97 <=? 87 + d) && (87 + d <=? 102)) with true.
      * f_equal. lia.
      * symmetry. apply andb_true_iff. split; apply N.leb_le; lia.
    + symmetry. apply andb_false_iff. right. apply N.leb_gt. lia.
Qed.

Lemma hex4_unicode_escape c :
  c < 65536 →
  hex4 (hex_char (c / 4096 mod 16)) (hex_char (c / 256 mod 16))
       (hex_char (c / 16 mod 16)) (hex_char (c mod 16)) = Some c.
Proof.
  intros Hc. unfold hex4.
  rewrite !hex_value_hex_char by (apply N.mod_lt; lia). step_bind. f_equal.
  zify. Z.to_euclidean_division_equations. lia.
Qed.

Lemma parse_chars_plain c r :
  c ≠ 34 → c ≠ 92 → 32 ≤ c →
  parse_chars (c :: r) = '(cs, r') ← parse_chars r; Some (c :: cs, r').
Proof.
  intros H34 H92 H32. cbn [parse_chars].
  destruct (N.eqb_spec c 34); [done|]. destruct (N.eqb_spec c 92); [done|].
  destruct (N.ltb_spec c 32); [lia|]. done.
Qed.

Lemma parse_chars_unicode_escape c r :
  c < 65536 →
  parse_chars (unicode_escape c ++ r) = '(cs, r') ← parse_chars r; Some (c :: cs, r').
Proof.
  intros Hc. unfold unicode_escape. cbn [app parse_chars].
  change (92 =? 34) with false. change (92 =? 92) with true.
  change (117 =? 34) with false. change (117 =? 92) with false.
  change (117 =? 47) with false. change (117 =? 98) with false.
  change (117 =? 102) with false. change (117 =? 110) with false.
  change (117 =? 114) with false. change (117 =? 116) with false.
  change (117 =? 117) with true. cbv iota.
  by rewrite hex4_unicode_escape.
Qed.

Lemma parse_chars_quote_units n : ∀ s rest,
  (length s ≤ n)%nat →
  parse_chars (quote_units s ++ 34 :: rest) = Some (s, rest).
Proof.
  induction n as [|n IH]; intros s rest Hlen.
  { destruct s; [done|simpl in Hlen; lia]. }
  destruct s as [|c r]; [done|]. simpl in Hlen.
  assert (IHr : parse_chars (quote_units r ++ 34 :: rest) = Some (r, rest))
    by (apply IH; lia).
  cbn [quote_units].
  destruct (N.eqb_spec c 8) as [->|H8]; [cbn; by rewrite IHr|].
  destruct (N.eqb_spec c 9) as [->|H9]; [cbn; by rewrite IHr|].
  destruct (N.eqb_spec c 10) as [->|H10]; [cbn; by rewrite IHr|].
  destruct (N.eqb_spec c 12) as [->|H12]; [cbn; by rewrite IHr|].
  destruct (N.eqb_spec c 13) as [->|H13]; [cbn; by rewrite IHr|].
  destruct (N.eqb_spec c 34) as [->|H34]; [cbn; by rewrite IHr|].
  destruct (N.eqb_spec c 92) as [->|H92]; [cbn; by rewrite IHr|].
  destruct (N.ltb_spec c 32) as [Hctl|Hctl].
  { rewrite <- app_assoc, parse_chars_unicode_escape by lia. by rewrite IHr. }
  assert (Hplain : ∀ r', parse_chars (c :: r')
            = '(cs, r'') ← parse_chars r'; Some (c :: cs, r''))
    by (intros; by apply parse_chars_plain).
  unfold is_high_surrogate, is_low_surrogate.
  destruct (N.leb_spec 55296 c) as [Hhi1|Hhi1];
    destruct (N.leb_spec c 56319) as [Hhi2|Hhi2]; cbn [andb].
  - destruct r as [|c2 r2].
    + by rewrite parse_chars_unicode_escape by lia.
    + destruct (N.leb_spec 56320 c2) as [Hlo1|Hlo1];
        destruct (N.leb_spec c2 57343) as [Hlo2|Hlo2]; cbn [andb].
      * cbn [app]. rewrite Hplain, parse_chars_plain by lia.
        rewrite IH by (simpl in Hlen; lia). done.
      * rewrite <- app_assoc, parse_chars_unicode_escape by lia. by rewrite IHr.
      * rewrite <- app_assoc, parse_chars_unicode_escape by lia. by rewrite IHr.
      * lia.
  - destruct (N.leb_spec 56320 c) as [Hlo1|Hlo1];
      destruct (N.leb_spec c 57343) as [Hlo2|Hlo2]; cbn [andb]; try lia.
    + rewrite <- app_assoc, parse_chars_unicode_escape by lia. by rewrite IHr.
    + cbn [app]. rewrite Hplain. by rewrite IHr.
  - destruct (N.leb_spec 56320 c); cbn [andb]; [lia|].
    cbn [app]. rewrite Hplain. by rewrite IHr.
  - lia.
Qed.

Lemma parse_chars_Quote s rest :
  parse_chars (quote_units s ++ 34 :: rest) = Some (s, rest).
Proof. by apply (parse_chars_quote_units (length s)). Qed.

(** ** Values *)

Lemma stringify_array vs :
  JSON_stringify (JArr vs) = 91 :: stringify_elements vs ++ [93].
Proof. reflexivity. Qed.

Lemma stringify_object ps :
  JSON_stringify (JObj ps) = 123 :: stringify_members ps ++ [125].
Proof. reflexivity. Qed.

Lemma stringify_elements_cons v vs rest :
  stringify_elements (v :: vs) ++ 93 :: rest
  = JSON_stringify v ++
      match vs with
      | [] => 93 :: rest
      | _ :: _ => 44 :: stringify_elements vs ++ 93 :: rest
      end.
Proof.
  destruct vs as [|v' vs]; [done|].
  change (stringify_elements (v :: v' :: vs))
    with (JSON_stringify v ++ 44 :: stringify_elements (v' :: vs)).
  by rewrite <- app_assoc.
Qed.

Lemma stringify_members_cons k v ps rest :
  stringify_members ((k, v) :: ps) ++ 125 :: rest
  = 34 :: quote_units k ++ 34 :: 58 :: JSON_stringify v ++
      match ps with
      | [] => 125 :: rest
      | _ :: _ => 44 :: stringify_members ps ++ 125 :: rest
      end.
Proof.
  destruct ps as [|kv' ps].
  - cbn [stringify_members]. unfold QuoteJSONString.
    by repeat (rewrite <- app_assoc || cbn [app]).
  - change (stringify_members ((k, v) :: kv' :: ps))
      with (QuoteJSONString k ++ 58 :: JSON_stringify v
              ++ 44 :: stringify_members (kv' :: ps)).
    unfold QuoteJSONString. by repeat (rewrite <- app_assoc || cbn [app]).
Qed.

Lemma Number_toString_pos_head ds n :
  canonical_digits ds →
  ∃ c r, Number_toString_pos ds n = c :: r ∧ is_digit c = true.
Proof.
  intros Hc. destruct (canonical_digits_cons ds Hc) as (d & tl & -> & Hd & Hd10 & Htl).
  pose proof (is_digit_digit_char d Hd10) as Hdig.
  unfold Number_toString_pos. cbn [map].
  repeat case_match; try (eexists _, _; split; [reflexivity|done]).
  destruct (Z.to_nat n) eqn:E.
  - exfalso. destruct (Z.ltb_spec 0 n); [lia|done].
  - eexists _, _; split; [reflexivity|done].
Qed.

Lemma is_digit_range c : is_digit c = true → 48 ≤ c ≤ 57.
Proof.
  unfold is_digit. intros [H1 H2]%andb_true_iff.
  apply N.leb_le in H1, H2. lia.
Qed.

Lemma skip_ws_head c r : is_ws c = false → skip_ws (c :: r) = c :: r.
Proof. intros H. cbn [skip_ws]. by rewrite H. Qed.

(** Settle every test [a =? b] of the goal with [lia]. *)
Ltac settle_eqb :=
  repeat match goal with
         | |- context [N.eqb ?a ?b] => destruct (N.eqb_spec a b); try lia
         end.

Lemma parse_value_numeral fuel c r :
  is_digit c = true ∨ c = 45 →
  parse_value (S fuel) (c :: r) = '(x, r') ← parse_number (c :: r); Some (JNum x, r').
Proof.
  intros Hc. assert (48 ≤ c ≤ 57 ∨ c = 45) as Hr.
  { destruct Hc as [Hc| ->]; [left; by apply is_digit_range|by right]. }
  cbn [parse_value]. rewrite skip_ws_head.
  2:{ unfold is_ws. by settle_eqb. }
  by settle_eqb.
Qed.

Lemma parse_value_number x fuel rest :
  wf_number x → terminated rest →
  parse_value (S fuel) (JSON_stringify (JNum x) ++ rest) = Some (jsonify_number x, rest).
Proof.
  intros Hwf Hrest. destruct x as [| neg | neg | neg ds n]; try done.
  - cbn [JSON_stringify is_finite Number_toString].
    change (lit "0" ++ rest) with (48 :: rest).
    rewrite parse_value_numeral by (by left).
    cbn [parse_number]. change (48 =? 45) with false. cbv iota.
    unfold parse_unsigned. rewrite parse_int_zero. step_bind.
    rewrite parse_frac_none by done. step_bind.
    rewrite parse_exp_none by done. done.
  - cbn [JSON_stringify is_finite Number_toString jsonify_number].
    simpl in Hwf.
    destruct (Number_toString_pos_head ds n Hwf) as (c & r & Htext & Hdig).
    pose proof (parse_unsigned_toString neg ds rest Hwf Hrest n) as Hparse.
    rewrite <- app_assoc. destruct neg; cbn [app].
    + rewrite parse_value_numeral by (by right). cbn [parse_number].
      change (45 =? 45) with true. cbv iota. by rewrite Hparse.
    + rewrite Htext in *. cbn [app] in *.
      rewrite parse_value_numeral by (by left). cbn [parse_number].
      destruct (N.eqb_spec c 45) as [->|_]; [done|]. by rewrite Hparse.
Qed.

Lemma stringify_head v :
  wf_value v → ∃ c r, JSON_stringify v = c :: r ∧ opens_value c.
Proof.
  intros Hwf. destruct v as [|[]|x|s|vs|ps];
    try (eexists _, _; split; [reflexivity|done]).
  destruct x as [| neg | neg | neg ds n];
    try (eexists _, _; split; [reflexivity|done]).
  cbn [JSON_stringify is_finite Number_toString]. simpl in Hwf.
  destruct (Number_toString_pos_head ds n Hwf) as (c & r & -> & Hdig).
  destruct neg; [eexists _, _; split; [reflexivity|done]|].
  exists c, r. split; [done|]. apply is_digit_range in Hdig.
  unfold opens_value, is_ws. split; [by settle_eqb|lia].
Qed.

Lemma wf_array vs : wf_value (JArr vs) ↔ Forall wf_value vs.
Proof.
  cbn [wf_value]. induction vs as [|v vs IH]; [by split|].
  rewrite Forall_cons, <- IH. done.
Qed.

Lemma wf_object ps :
  wf_value (JObj ps) ↔ NoDup ps.*1 ∧ Forall (fun kv => wf_value kv.2) ps.
Proof.
  cbn [wf_value]. apply and_iff_compat_l.
  induction ps as [|kv ps IH]; [by split|].
  rewrite Forall_cons, <- IH. done.
Qed.

Lemma parse_value_string s fuel rest :
  parse_value (S fuel) (QuoteJSONString s ++ rest) = Some (JStr s, rest).
Proof.
  unfold QuoteJSONString. cbn [app]. rewrite <- app_assoc. cbn [app parse_value].
  rewrite skip_ws_head by done.
  change (34 =? 110) with false. change (34 =? 116) with false.
  change (34 =? 102) with false. change (34 =? 34) with true. cbv iota.
  by rewrite parse_chars_Quote.
Qed.

Lemma parse_elements_stringify vs : ∀ v fuel rest,
  Forall reads_back (v :: vs) → Forall wf_value (v :: vs) →
  (list_sum (map (fun v => S (size v)) (v :: vs)) ≤ fuel)%nat →
  parse_elements fuel (stringify_elements (v :: vs) ++ 93 :: rest)
  = Some (map jsonify (v :: vs), rest).
Proof.
  induction vs as [|v' vs IH]; intros v fuel rest Hback Hwf Hfuel;
    apply Forall_cons in Hback as [Hv Hback]; apply Forall_cons in Hwf as [Hwv Hwf];
    cbn [map list_sum fold_right] in Hfuel; (destruct fuel as [|f]; [lia|]);
    rewrite stringify_elements_cons; cbn [parse_elements].
  - rewrite (Hv Hwv f (93 :: rest)); [|right; by left|lia].
    step_bind. by rewrite skip_ws_head.
  - rewrite (Hv Hwv f (44 :: _)); [|by left|lia].
    step_bind. rewrite skip_ws_head by done.
    change (44 =? 44) with true. cbv iota.
    rewrite IH; [done|done|done|]. cbn [map list_sum fold_right]. lia.
Qed.

Lemma obj_set_fresh k v acc :
  k ∉ acc.*1 → obj_set k v acc = acc ++ [(k, v)].
Proof.
  induction acc as [|[k' v'] acc IH]; intros Hk; [done|].
  cbn [obj_set]. rewrite fmap_cons in Hk. apply not_elem_of_cons in Hk as [Hne Hk].
  destruct (decide (k' = k)) as [->|_]; [done|]. cbn [app]. by rewrite IH.
Qed.

Lemma parse_members_stringify ps : ∀ kv fuel acc rest,
  Forall (fun kv => reads_back kv.2) (kv :: ps) →
  Forall (fun kv => wf_value kv.2) (kv :: ps) →
  NoDup (acc.*1 ++ (kv :: ps).*1) →
  (list_sum (map (fun kv => S (size kv.2)) (kv :: ps)) ≤ fuel)%nat →
  parse_members fuel acc (stringify_members (kv :: ps) ++ 125 :: rest)
  = Some (acc ++ map (fun kv => (kv.1, jsonify kv.2)) (kv :: ps), rest).
Proof.
  induction ps as [|kv' ps IH]; intros [k v] fuel acc rest Hback Hwf Hnd Hfuel;
    apply Forall_cons in Hback as [Hv Hback]; apply Forall_cons in Hwf as [Hwv Hwf];
    cbn [map list_sum fold_right] in Hfuel; (destruct fuel as [|f]; [lia|]);
    rewrite stringify_members_cons; cbn [parse_members];
    rewrite skip_ws_head by done; change (34 =? 34) with true; cbv iota;
    rewrite parse_chars_Quote; step_bind; rewrite skip_ws_head by done;
    change (58 =? 58) with true; cbv iota; simpl in Hv, Hwv, Hfuel;
    assert (k ∉ acc.*1) as Hfresh
      by (apply NoDup_app in Hnd as (_ & Hdis & _); intros Hin;
          apply (Hdis k Hin); rewrite fmap_cons; left).
  - rewrite (Hv Hwv f (125 :: rest)); [|right; by right|lia].
    step_bind. rewrite skip_ws_head by done.
    change (125 =? 44) with false. change (125 =? 125) with true. cbv iota.
    by rewrite obj_set_fresh.
  - rewrite (Hv Hwv f (44 :: _)); [|by left|lia].
    step_bind. rewrite skip_ws_head by done.
    change (44 =? 44) with true. cbv iota.
    rewrite obj_set_fresh by done. rewrite IH; [| done | done | | ].
    + by rewrite <- app_assoc.
    + rewrite fmap_app, <- app_assoc. exact Hnd.
    + cbn [map list_sum fold_right]. lia.
Qed.

Lemma parse_value_stringify v : reads_back v.
Proof.
  induction v as [|b|x|s|vs IH|ps IH] using value_nested_ind;
    intros Hwf fuel rest Hrest Hfuel;
    (destruct fuel as [|f]; [simpl in Hfuel; lia|]).
  - done.
  - by destruct b.
  - by apply parse_value_number.
  - apply parse_value_string.
  - rewrite stringify_array. apply wf_array in Hwf.
    cbn [app parse_value]. rewrite skip_ws_head by done.
    change (91 =? 110) with false. change (91 =? 116) with false.
    change (91 =? 102) with false. change (91 =? 34) with false.
    change (91 =? 91) with true. cbv iota. rewrite <- app_assoc. cbn [app].
    destruct vs as [|v vs]; [done|].
    destruct (stringify_head v) as (c & r & Hc & Hws & Hc93 & _);
      [by inversion Hwf|].
    rewrite parse_elements_stringify; [|done|done|simpl in *; lia].
    rewrite stringify_elements_cons, Hc. cbn [app]. rewrite skip_ws_head by done.
    by destruct (N.eqb_spec c 93).
  - rewrite stringify_object. apply wf_object in Hwf as [Hnd Hwf].
    cbn [app parse_value]. rewrite skip_ws_head by done.
    change (123 =? 110) with false. change (123 =? 116) with false.
    change (123 =? 102) with false. change (123 =? 34) with false.
    change (123 =? 91) with false. change (123 =? 123) with true. cbv iota.
    rewrite <- app_assoc. cbn [app].
    destruct ps as [|[k v] ps]; [done|].
    rewrite parse_members_stringify; [|done|done|done|simpl in *; lia].
    rewrite stringify_members_cons. by rewrite skip_ws_head.
Qed.

Lemma stringify_length v : wf_value v → (size v ≤ length (JSON_stringify v))%nat.
Proof.
  induction v as [|b|x|s|vs IH|ps IH] using value_nested_ind; intros Hwf.
  - simpl. lia.
  - destruct b; simpl; lia.
  - destruct (stringify_head (JNum x) Hwf) as (c & r & -> & _). simpl. lia.
  - simpl. lia.
  - rewrite stringify_array. apply wf_array in Hwf. cbn [size length].
    rewrite length_app. cbn [length].
    enough (list_sum (map (fun v => S (size v)) vs)
            ≤ S (length (stringify_elements vs)))%nat by lia.
    induction vs as [|v vs IHvs]; [simpl; lia|].
    apply Forall_cons in IH as [Hv IH], Hwf as [Hwv Hwf].
    specialize (IHvs IH Hwf). specialize (Hv Hwv).
    destruct vs as [|v' vs].
    + simpl in *. lia.
    + change (stringify_elements (v :: v' :: vs))
        with (JSON_stringify v ++ 44 :: stringify_elements (v' :: vs)).
      rewrite length_app. cbn [length map list_sum fold_right] in *. lia.
  - rewrite stringify_object. apply wf_object in Hwf as [_ Hwf]. cbn [size length].
    rewrite length_app. cbn [length].
    enough (list_sum (map (fun kv => S (size kv.2)) ps)
            ≤ S (length (stringify_members ps)))%nat by lia.
    induction ps as [|[k v] ps IHps]; [simpl; lia|].
    apply Forall_cons in IH as [Hv IH], Hwf as [Hwv Hwf].
    specialize (IHps IH Hwf). specialize (Hv Hwv). simpl in Hv.
    destruct ps as [|kv' ps].
    + cbn [stringify_members map list_sum fold_right snd].
      rewrite length_app. cbn [length]. lia.
    + change (stringify_members ((k, v) :: kv' :: ps))
        with (QuoteJSONString k ++ 58 :: JSON_stringify v
                ++ 44 :: stringify_members (kv' :: ps)).
      rewrite length_app. cbn [length]. rewrite length_app.
      cbn [length map list_sum fold_right snd] in *. lia.
Qed.

(** [JSON.parse(JSON.stringify(v))] is [jsonify v]. *)
Lemma JSON_parse_stringify v :
  wf_value v → JSON_parse (JSON_stringify v) = Some (jsonify v).
Proof.
  intros Hwf. unfold JSON_parse.
  pose proof (parse_value_stringify v Hwf (S (length (JSON_stringify v))) []) as H.
  rewrite app_nil_r in H. rewrite H; [done|done|].
  pose proof (stringify_length v Hwf). lia.
Qed.

Lemma jsonify_plain v : plain v → jsonify v = v.
Proof.
  induction v as [|b|x|s|vs IH|ps IH] using value_nested_ind; intros Hp; try done.
  - by destruct x as [| | [] |].
  - cbn [jsonify]. f_equal. cbn [plain] in Hp.
    induction vs as [|v vs IHvs]; [done|].
    apply Forall_cons in IH as [Hv IH]. destruct Hp as [Hpv Hp].
    cbn [map]. by rewrite Hv, IHvs.
  - cbn [jsonify]. f_equal. cbn [plain] in Hp.
    induction ps as [|[k v] ps IHps]; [done|].
    apply Forall_cons in IH as [Hv IH]. destruct Hp as [Hpv Hp].
    cbn [map]. simpl in *. by rewrite Hv, IHps.
Qed.

(** ** The proxy handlers *)

Lemma getSupportedCurrencies_proxy E :
  getSupportedCurrencies E
  = proxy E (lit "getSupportedCurrencies") (JObj [])
      (API_HOST ++ lit "/simple/supported_vs_currencies") [] []
      (lit "Error fetching supported currencies:")
      (lit "Failed to fetch supported currencies").
Proof. reflexivity. Qed.

Lemma getCoinPrice_proxy E a :
  getCoinPrice E a
  = proxy E (lit "getCoinPrice") (strings_value (getCoinPrice_params a))
      (API_HOST ++ lit "/simple/price")
      [(lit "params", Some (strings_value (getCoinPrice_params a)))]
      (getCoinPrice_params a)
      (lit "Error fetching coin prices:")
      (lit "Failed to fetch coin prices").
Proof. reflexivity. Qed.

Lemma getPublicCompaniesHoldings_proxy E coin_id :
  getPublicCompaniesHoldings E coin_id
  = proxy E (lit "getPublicCompaniesHoldings")
      (JObj [(lit "coin_id", JStr coin_id)])
      (API_HOST ++ lit "/companies/public_treasury/" ++ coin_id)
      [(lit "coin_id", Some (JStr coin_id))] []
      (lit "Error fetching public companies holdings:")
      (lit "Failed to fetch public companies holdings").
Proof. reflexivity. Qed.

Lemma proxy_run E tool args url call_fields params label msg w :
  let req := {| url := url; headers := defined (CG_HEADER E); query := defined params |} in
  ∃ w',
    proxy E tool args url call_fields params label msg w
    = (inr match settle (net E (length (sent w)) req) with
           | inr response => text_envelope (JSON_stringify (data response))
           | inl _ => failure_envelope msg
           end, w')
    ∧ sent w' = sent w ++ [req]
    ∧ ∀ e, settle (net E (length (sent w)) req) = inl e →
           console_error_line label e ∈ console w'.
Proof.
  intros req.
  cbv [proxy try_catch logRequest console_error write_console toISOString
       axios_get mbind M_bind mret M_ret].
  cbn [sent console ticks]. fold req.
  destruct (settle (net E (length (sent w)) req)) as [e|response];
    cbn [sent console ticks]; eexists; (split; [reflexivity|]);
    (split; [reflexivity|]); intros e' He'; [|done].
  simplify_eq. cbn [console]. set_solver.
Qed.

Lemma run_proxy_spec E c w :
  ∃ w',
    run_proxy E c w
    = (inr match settle (answer E w c) with
           | inr response => text_envelope (JSON_stringify (data response))
           | inl _ => failure_envelope (failure_message c)
           end, w')
    ∧ sent w' = sent w ++ [request_of E c]
    ∧ ∀ e, settle (answer E w c) = inl e →
           console_error_line (error_label c) e ∈ console w'.
Proof.
  destruct c as [|a|coin_id]; cbn [run_proxy].
  - rewrite getSupportedCurrencies_proxy. apply proxy_run.
  - rewrite getCoinPrice_proxy. apply proxy_run.
  - rewrite getPublicCompaniesHoldings_proxy. apply proxy_run.
Qed.

Lemma upstream_fails_settle a : upstream_fails a ↔ ∃ e, settle a = inl e.
Proof.
  destruct a as [msg|st txt d]; cbn [upstream_fails settle].
  - split; [eauto|done].
  - destruct (N.leb_spec 200 st), (N.ltb_spec st 300); cbn [andb]; split;
      try (intros []; lia); try (intros [? ?]; done); eauto; intros _; lia.
Qed.

Lemma settle_data a response :
  settle a = inr response → ∃ st txt, a = HttpResponse st txt (data response).
Proof.
  destruct a as [msg|st txt d]; cbn [settle]; [done|].
  case_match; [|done]. intros [= <-]. by exists st, txt.
Qed.

Lemma failure_text_decodes m :
  JSON_parse (JSON_stringify (JObj [(lit "error", JStr m)]))
  = Some (JObj [(lit "error", JStr m)]).
Proof.
  apply (JSON_parse_stringify (JObj [(lit "error", JStr m)])).
  apply wf_object. split; [|by repeat constructor].
  apply NoDup_singleton.
Qed.

(** * The claims *)

(** C1. When the upstream call of a proxy tool fails (no response, or
    a status outside 200..299) the handler returns normally, with an
    envelope whose single block has type [text] and whose text decodes
    to the object [{error: m}], [m] being the fixed message of the
    tool. *)
Theorem upstream_failure_envelope E w c :
  upstream_fails (answer E w c) →
  ∃ w' b,
    run_proxy E c w = (inr {| content := [b] |}, w')
    ∧ type b = lit "text"
    ∧ JSON_parse (text b) = Some (JObj [(lit "error", JStr (failure_message c))]).
Proof.
  intros [e He]%upstream_fails_settle.
  destruct (run_proxy_spec E c w) as (w' & Hrun & _). rewrite He in Hrun.
  eexists w', _. split; [exact Hrun|]. split; [done|]. apply failure_text_decodes.
Qed.

Lemma upstream_failure_envelope_witness :
  ∃ w' b,
    run_proxy (constant_env service_unavailable) (CallCoinPrice no_arguments) sample_world
    = (inr {| content := [b] |}, w')
    ∧ type b = lit "text"
    ∧ JSON_parse (text b)
      = Some (JObj [(lit "error", JStr (lit "Failed to fetch coin prices"))]).
Proof.
  apply (upstream_failure_envelope (constant_env service_unavailable) sample_world
           (CallCoinPrice no_arguments)).
  simpl. lia.
Defined.

(** The registry of a session holds the four tools of [index.ts] and
    nothing else. *)
Lemma register_tools_lookup E name t :
  register_tools E !! name = Some t →
  (name = lit "hello" ∧ t = hello_tool E)
  ∨ (name = lit "getSupportedCurrencies" ∧ t = getSupportedCurrencies_tool E)
  ∨ (name = lit "getCoinPrice" ∧ t = getCoinPrice_tool E)
  ∨ (name = lit "getPublicCompaniesHoldings" ∧ t = getPublicCompaniesHoldings_tool E).
Proof.
  unfold register_tools, McpServer_tool. intros H.
  repeat (apply lookup_insert_Some in H as [[<- <-]|[_ H]]; [by eauto 6|]).
  by rewrite lookup_empty in H.
Qed.

Lemma hello_run E w :
  ∃ w', hello E w = (inr (text_envelope (lit "hello")), w') ∧ sent w' = sent w.
Proof.
  cbv [hello logRequest write_console toISOString mbind M_bind mret M_ret].
  cbn [sent console ticks]. by eexists.
Qed.

Lemma callTool_run E name t arguments a w :
  register_tools E !! name = Some t → inputSchema t arguments = inr a →
  callTool (register_tools E) name arguments w
  = match callback t a w with
    | (inl e, w') => (inl e, w')
    | (inr r, w') => (inr (inr r), w')
    end.
Proof. intros Ht Ha. unfold callTool. rewrite Ht, Ha. reflexivity. Qed.

Lemma proxy_text_is_json E c w :
  wf_upstream E →
  ∃ w' b, run_proxy E c w = (inr {| content := [b] |}, w')
          ∧ type b = lit "text" ∧ is_Some (JSON_parse (text b)).
Proof.
  intros Hwf. destruct (run_proxy_spec E c w) as (w' & Hrun & _).
  destruct (settle (answer E w c)) as [e|response] eqn:Hs.
  - eexists w', _. split; [exact Hrun|]. split; [done|].
    cbn [text]. by rewrite failure_text_decodes.
  - eexists w', _. split; [exact Hrun|]. split; [done|]. cbn [text].
    apply settle_data in Hs as (st & txt & Hs).
    rewrite JSON_parse_stringify; [done|]. by eapply Hwf.
Qed.

(** A call of a registered tool with arguments that its schema accepts
    returns an envelope with exactly one block, of type [text]. *)
Lemma callTool_one_text_block E name t arguments a w :
  wf_upstream E →
  register_tools E !! name = Some t →
  inputSchema t arguments = inr a →
  ∃ w' b,
    callTool (register_tools E) name arguments w = (inr (inr {| content := [b] |}), w')
    ∧ type b = lit "text"
    ∧ (name = lit "hello" → text b = lit "hello")
    ∧ (name ≠ lit "hello" → is_Some (JSON_parse (text b))).
Proof.
  intros Hwf Ht Ha. rewrite (callTool_run E name t arguments a w Ht Ha).
  apply register_tools_lookup in Ht as [[-> ->]|[[-> ->]|[[-> ->]|[-> ->]]]];
    cbn [callback Args hello_tool getSupportedCurrencies_tool getCoinPrice_tool
         getPublicCompaniesHoldings_tool] in *.
  - destruct (hello_run E w) as (w' & -> & _). by eexists w', _.
  - destruct (proxy_text_is_json E CallSupportedCurrencies w Hwf)
      as (w' & b & Hrun & Hty & Hjson).
    cbn [run_proxy] in Hrun. rewrite Hrun. by exists w', b.
  - destruct (proxy_text_is_json E (CallCoinPrice a) w Hwf)
      as (w' & b & Hrun & Hty & Hjson).
    cbn [run_proxy] in Hrun. rewrite Hrun. by exists w', b.
  - destruct (proxy_text_is_json E (CallPublicCompaniesHoldings a) w Hwf)
      as (w' & b & Hrun & Hty & Hjson).
    cbn [run_proxy] in Hrun. rewrite Hrun. by exists w', b.
Qed.

(** C2, as amended. Each of the four tools, called with validated
    arguments, returns an envelope with exactly one block, of type
    [text]. The text of [hello] is the five letters [hello], which is
    not a JSON text; the text of each of the three proxy tools is valid
    JSON. *)
Theorem every_tool_returns_one_text_block E c w :
  wf_upstream E →
  ∃ w' b,
    run_tool E c w = (inr {| content := [b] |}, w')
    ∧ type b = lit "text"
    ∧ match c with
      | CallHello => text b = lit "hello" ∧ JSON_parse (text b) = None
      | CallProxy _ => is_Some (JSON_parse (text b))
      end.
Proof.
  intros Hwf. destruct c as [|c]; cbn [run_tool].
  - destruct (hello_run E w) as (w' & -> & _). by eexists w', _.
  - apply proxy_text_is_json, Hwf.
Qed.

Lemma sample_prices_wf : wf_value sample_prices.
Proof.
  apply wf_object. split; [apply NoDup_singleton|]. constructor; [|done].
  apply wf_object. split; [apply NoDup_singleton|]. constructor; [|done].
  cbn. split; [repeat constructor|]. split; eexists; (split; [reflexivity|done]).
Qed.

Lemma constant_env_wf a :
  (∀ st txt d, a = HttpResponse st txt d → wf_value d) → wf_upstream (constant_env a).
Proof. intros H k req st txt d Hnet. by eapply H. Qed.

Lemma sample_env_wf : wf_upstream sample_env.
Proof. apply constant_env_wf. intros st txt d [= _ _ <-]. apply sample_prices_wf. Qed.

Lemma every_tool_returns_one_text_block_witness :
  ∃ w' b,
    run_tool sample_env (CallProxy (CallCoinPrice no_arguments)) sample_world
    = (inr {| content := [b] |}, w')
    ∧ type b = lit "text"
    ∧ is_Some (JSON_parse (text b)).
Proof.
  apply (every_tool_returns_one_text_block sample_env
           (CallProxy (CallCoinPrice no_arguments)) sample_world).
  apply sample_env_wf.
Defined.

(** C2 as stated fails for [hello]: its text, [hello] without quotes,
    is not a JSON text. *)
Lemma hello_text_is_not_json :
  ∃ w' b,
    run_tool sample_env CallHello sample_world = (inr {| content := [b] |}, w')
    ∧ type b = lit "text"
    ∧ JSON_parse (text b) = None.
Proof.
  destruct (hello_run sample_env sample_world) as (w' & Hrun & _).
  exists w', {| type := lit "text"; text := lit "hello" |}.
  split; [exact Hrun|]. split; reflexivity.
Qed.

Lemma holdings_registered E :
  register_tools E !! lit "getPublicCompaniesHoldings"
  = Some (getPublicCompaniesHoldings_tool E).
Proof. reflexivity. Qed.

(** C3. A call of [getPublicCompaniesHoldings] whose [coin_id] is
    neither the string [bitcoin] nor the string [ethereum] (any other
    string, a value that is not a string, or no [coin_id] at all) is
    answered with a protocol-level error that names the parameter. The
    world is unchanged: the handler, whose first statement writes a
    [TOOL_CALL] line, has not run, and no request has been issued. *)
Theorem holdings_rejects_other_coins E ps w :
  get ps (lit "coin_id") ≠ Some (JStr (lit "bitcoin")) →
  get ps (lit "coin_id") ≠ Some (JStr (lit "ethereum")) →
  ∃ c,
    callTool (register_tools E) (lit "getPublicCompaniesHoldings") (Some (JObj ps)) w
    = (inr (inl (InvalidArguments (lit "getPublicCompaniesHoldings")
                   {| code := c; path := [lit "coin_id"] |})), w).
Proof.
  intros Hb He. unfold callTool. rewrite holdings_registered.
  cbn [inputSchema getPublicCompaniesHoldings_tool getPublicCompaniesHoldings_schema].
  unfold field, z_enum.
  destruct (get ps (lit "coin_id")) as [[| | |s| |]|]; try by eexists.
  case_bool_decide as Hin; [|by eexists].
  apply elem_of_cons in Hin as [->|Hin]; [done|].
  apply elem_of_cons in Hin as [->|Hin]; [done|].
  by apply elem_of_nil in Hin.
Qed.

Lemma holdings_rejects_other_coins_witness :
  ∃ c,
    callTool (register_tools sample_env) (lit "getPublicCompaniesHoldings")
      (Some (JObj [(lit "coin_id", JStr (lit "dogecoin"))])) sample_world
    = (inr (inl (InvalidArguments (lit "getPublicCompaniesHoldings")
                   {| code := c; path := [lit "coin_id"] |})), sample_world).
Proof.
  apply (holdings_rejects_other_coins sample_env
           [(lit "coin_id", JStr (lit "dogecoin"))] sample_world).
  - vm_compute. discriminate.
  - vm_compute. discriminate.
Defined.

(** C4. When none of [ids], [names], [symbols], [vs_currencies] is
    given, the schema supplies [vs_currencies = "usd"] and the handler
    issues one request, to [{base}/simple/price], whose query holds the
    single parameter [vs_currencies=usd]. *)
Theorem getCoinPrice_defaults E ps w :
  get ps (lit "ids") = None → get ps (lit "names") = None →
  get ps (lit "symbols") = None → get ps (lit "vs_currencies") = None →
  ∃ a w' r,
    getCoinPrice_schema (Some (JObj ps)) = inr a
    ∧ getCoinPrice E a w = (inr r, w')
    ∧ sent w' = sent w ++
        [{| url := API_HOST ++ lit "/simple/price";
            headers := defined (CG_HEADER E);
            query := [(lit "vs_currencies", lit "usd")] |}].
Proof.
  intros Hi Hn Hs Hv. exists no_arguments.
  destruct (run_proxy_spec E (CallCoinPrice no_arguments) w) as (w' & Hrun & Hsent & _).
  eexists w', _. split; [|split; [exact Hrun|exact Hsent]].
  cbn [getCoinPrice_schema]. unfold field. by rewrite Hi, Hn, Hs, Hv.
Qed.

Lemma getCoinPrice_defaults_witness :
  ∃ a w' r,
    getCoinPrice_schema (Some (JObj [])) = inr a
    ∧ getCoinPrice sample_env a sample_world = (inr r, w')
    ∧ sent w' = sent sample_world ++
        [{| url := API_HOST ++ lit "/simple/price";
            headers := defined (CG_HEADER sample_env);
            query := [(lit "vs_currencies", lit "usd")] |}].
Proof. apply (getCoinPrice_defaults sample_env [] sample_world); reflexivity. Defined.

(** C5 as stated fails for a payload with a number that is not finite:
    it is serialized as [null]. *)
Lemma infinity_is_not_round_tripped :
  ∃ w' b,
    run_proxy (constant_env overflowing_body) CallSupportedCurrencies sample_world
    = (inr {| content := [b] |}, w')
    ∧ JSON_parse (text b) = Some JNull
    ∧ JSON_parse (text b) ≠ Some (JNum (Infinity false)).
Proof. eexists _, _. split; [reflexivity|]. split; [reflexivity|discriminate]. Qed.

(** C5, as amended. The success envelope of a payload [d] has one text
    block, [JSON.stringify(d)]. Decoding it gives [d] with every number
    that is not finite replaced by [null] and negative zero by zero;
    it gives [d] itself when [d] has no such number. *)
Theorem success_round_trip E w c st txt d :
  answer E w c = HttpResponse st txt d → 200 ≤ st < 300 → wf_value d →
  ∃ w' b,
    run_proxy E c w = (inr {| content := [b] |}, w')
    ∧ type b = lit "text"
    ∧ text b = JSON_stringify d
    ∧ JSON_parse (text b) = Some (jsonify d)
    ∧ (plain d → JSON_parse (text b) = Some d).
Proof.
  intros Hans Hst Hwf. destruct (run_proxy_spec E c w) as (w' & Hrun & _).
  rewrite Hans in Hrun. cbn [settle] in Hrun.
  destruct (N.leb_spec 200 st); [|lia]. destruct (N.ltb_spec st 300); [|lia].
  cbn [andb data] in Hrun. eexists w', _. split; [exact Hrun|].
  cbn [text type]. rewrite JSON_parse_stringify by done.
  repeat split. intros Hp. by rewrite jsonify_plain.
Qed.

Lemma success_round_trip_witness :
  ∃ w' b,
    run_proxy sample_env (CallCoinPrice no_arguments) sample_world
    = (inr {| content := [b] |}, w')
    ∧ type b = lit "text"
    ∧ text b = JSON_stringify sample_prices
    ∧ JSON_parse (text b) = Some sample_prices.
Proof.
  destruct (success_round_trip sample_env sample_world (CallCoinPrice no_arguments)
              200 (lit "OK") sample_prices)
    as (w' & b & Hrun & Htype & Htext & _ & Hplain).
  - reflexivity.
  - lia.
  - apply sample_prices_wf.
  - exists w', b. split; [exact Hrun|]. split; [exact Htype|].
    split; [exact Htext|]. apply Hplain. simpl. tauto.
Defined.

(** C6. Two failures of the upstream call of the same tool, whatever
    the two errors are, give the same envelope: the one with the fixed
    message of the tool, in which no part of the error occurs. Each
    error is written to the console. *)
Theorem failure_envelope_independent_of_error E1 E2 w1 w2 c :
  upstream_fails (answer E1 w1 c) → upstream_fails (answer E2 w2 c) →
  ∃ w1' w2' e1 e2,
    run_proxy E1 c w1 = (inr (failure_envelope (failure_message c)), w1')
    ∧ run_proxy E2 c w2 = (inr (failure_envelope (failure_message c)), w2')
    ∧ settle (answer E1 w1 c) = inl e1
    ∧ settle (answer E2 w2 c) = inl e2
    ∧ console_error_line (error_label c) e1 ∈ console w1'
    ∧ console_error_line (error_label c) e2 ∈ console w2'.
Proof.
  intros [e1 H1]%upstream_fails_settle [e2 H2]%upstream_fails_settle.
  destruct (run_proxy_spec E1 c w1) as (w1' & Hrun1 & _ & Hlog1).
  destruct (run_proxy_spec E2 c w2) as (w2' & Hrun2 & _ & Hlog2).
  rewrite H1 in Hrun1. rewrite H2 in Hrun2.
  exists w1', w2', e1, e2. eauto 10.
Qed.

Lemma failure_envelope_independent_of_error_witness :
  ∃ w1' w2' e1 e2,
    run_proxy (constant_env service_unavailable) (CallCoinPrice no_arguments) sample_world
    = (inr (failure_envelope (lit "Failed to fetch coin prices")), w1')
    ∧ run_proxy (constant_env connection_refused) (CallCoinPrice no_arguments) sample_world
      = (inr (failure_envelope (lit "Failed to fetch coin prices")), w2')
    ∧ settle service_unavailable = inl e1
    ∧ settle connection_refused = inl e2
    ∧ console_error_line (lit "Error fetching coin prices:") e1 ∈ console w1'
    ∧ console_error_line (lit "Error fetching coin prices:") e2 ∈ console w2'.
Proof.
  apply (failure_envelope_independent_of_error
           (constant_env service_unavailable) (constant_env connection_refused)
           sample_world sample_world (CallCoinPrice no_arguments)).
  - simpl. lia.
  - simpl. exact I.
Defined.

(** C7. [hello] returns the envelope whose single block is
    [{type: "text", text: "hello"}], in every environment and world. *)
Theorem hello_returns_hello E w :
  ∃ w',
    hello E w
    = (inr {| content := [{| type := lit "text"; text := lit "hello" |}] |}, w').
Proof. destruct (hello_run E w) as (w' & Hrun & _). by exists w'. Qed.



(** ** Sessions *)






















(** * Further properties of the handlers *)

(** The whole effect of the shared body of the proxy handlers. *)
Lemma proxy_effect E tool args url call_fields params label msg w :
  let req := {| url := url; headers := defined (CG_HEADER E); query := defined params |} in
  ∃ w' ls,
    proxy E tool args url call_fields params label msg w
    = (inr match settle (net E (length (sent w)) req) with
           | inr response => text_envelope (JSON_stringify (data response))
           | inl _ => failure_envelope msg
           end, w')
    ∧ sent w' = sent w ++ [req]
    ∧ console w' = console w ++ ls
    ∧ ticks w' = (ticks w + 6)%nat
    ∧ map line_kind ls
      = match settle (net E (length (sent w)) req) with
        | inr _ => success_trace
        | inl _ => failure_trace
        end
    ∧ ∃ ts fields,
        console_log_line ts (lit "EXTERNAL_API_CALL") (JObj fields) ∈ ls
        ∧ get fields (lit "headers") = Some (header_value (CG_HEADER E)).
Proof.
  intros req.
  cbv [proxy try_catch logRequest console_error write_console toISOString
       axios_get mbind M_bind mret M_ret].
  cbn [sent console ticks]. fold req.
  destruct (settle (net E (length (sent w)) req)) as [e|response];
    cbn [sent console ticks]; eexists _, _; (split; [reflexivity|]);
    (split; [reflexivity|]); rewrite <- ?app_assoc; (split; [reflexivity|]);
    (split; [cbn [ticks]; lia|]); (split; [reflexivity|]).
  - eexists _, _. split; [apply list_elem_of_further, list_elem_of_here|reflexivity].
  - eexists _, _. split; [apply list_elem_of_further, list_elem_of_here|reflexivity].
Qed.

Lemma run_proxy_effect E c w :
  ∃ w' ls,
    run_proxy E c w
    = (inr match payload (answer E w c) with
           | Some d => text_envelope (JSON_stringify d)
           | None => failure_envelope (failure_message c)
           end, w')
    ∧ sent w' = sent w ++ [request_of E c]
    ∧ console w' = console w ++ ls
    ∧ map line_kind ls
      = match payload (answer E w c) with
        | Some _ => success_trace
        | None => failure_trace
        end
    ∧ ∃ ts fields,
        console_log_line ts (lit "EXTERNAL_API_CALL") (JObj fields) ∈ ls
        ∧ get fields (lit "headers") = Some (header_value (CG_HEADER E)).
Proof.
  assert (Hgen : ∀ tool args url call_fields params label,
    answer E w c = net E (length (sent w))
                     {| url := url; headers := defined (CG_HEADER E);
                        query := defined params |} →
    request_of E c = {| url := url; headers := defined (CG_HEADER E);
                        query := defined params |} →
    ∃ w' ls,
      proxy E tool args url call_fields params label (failure_message c) w
      = (inr match payload (answer E w c) with
             | Some d => text_envelope (JSON_stringify d)
             | None => failure_envelope (failure_message c)
             end, w')
      ∧ sent w' = sent w ++ [request_of E c]
      ∧ console w' = console w ++ ls
      ∧ map line_kind ls
        = match payload (answer E w c) with
          | Some _ => success_trace
          | None => failure_trace
          end
      ∧ ∃ ts fields,
          console_log_line ts (lit "EXTERNAL_API_CALL") (JObj fields) ∈ ls
          ∧ get fields (lit "headers") = Some (header_value (CG_HEADER E))).
  { intros tool args url call_fields params label Hans Hreq.
    destruct (proxy_effect E tool args url call_fields params label
                (failure_message c) w)
      as (w' & ls & Hrun & Hsent & Hcons & _ & Hkinds & Hkey).
    exists w', ls. unfold payload. rewrite Hans, Hreq.
    destruct (settle _); eauto 10. }
  destruct c as [|a|coin_id]; cbn [run_proxy].
  - rewrite getSupportedCurrencies_proxy. by apply Hgen.
  - rewrite getCoinPrice_proxy. by apply Hgen.
  - rewrite getPublicCompaniesHoldings_proxy. by apply Hgen.
Qed.


(** X2. The envelope of a proxy call is determined by the payload of
    the answer alone: two runs whose answers carry the same payload, or
    both fail, return the same envelope, whatever the status line, the
    API key, the clock and the console are. *)
Theorem envelope_determined_by_payload E1 E2 w1 w2 c :
  payload (answer E1 w1 c) = payload (answer E2 w2 c) →
  (run_proxy E1 c w1).1 = (run_proxy E2 c w2).1.
Proof.
  intros Hp. destruct (run_proxy_effect E1 c w1) as (w1' & ls1 & -> & _).
  destruct (run_proxy_effect E2 c w2) as (w2' & ls2 & -> & _).
  cbn [fst]. by rewrite Hp.
Qed.

Lemma envelope_determined_by_payload_witness :
  (run_proxy sample_env (CallCoinPrice no_arguments) sample_world).1
  = (run_proxy (keyless_env created) (CallCoinPrice no_arguments)
       {| console := []; sent := []; ticks := 7 |}).1.
Proof.
  apply (envelope_determined_by_payload sample_env (keyless_env created)
           sample_world {| console := []; sent := []; ticks := 7 |}
           (CallCoinPrice no_arguments)).
  reflexivity.
Defined.

(** X3. A proxy call appends to the console, and what it appends is,
    in this order: on success the lines TOOL_CALL, EXTERNAL_API_CALL,
    EXTERNAL_API_RESPONSE, TOOL_RESPONSE; on failure the lines
    TOOL_CALL, EXTERNAL_API_CALL, EXTERNAL_API_ERROR, the
    [console.error] line, TOOL_ERROR_RESPONSE. *)
Theorem proxy_call_console_trace E c w :
  ∃ r w' ls,
    run_proxy E c w = (inr r, w')
    ∧ console w' = console w ++ ls
    ∧ map line_kind ls
      = match payload (answer E w c) with
        | Some _ => success_trace
        | None => failure_trace
        end.
Proof.
  destruct (run_proxy_effect E c w) as (w' & ls & Hrun & _ & Hcons & Hkinds & _).
  eauto 10.
Qed.

(** X4. When the API key is set, every proxy call writes it to the
    console: the EXTERNAL_API_CALL line holds the request headers,
    the key among them. *)
Theorem api_key_is_logged E c w k :
  COINGECKO_API_KEY E = Some k →
  ∃ r w' ts fields hs,
    run_proxy E c w = (inr r, w')
    ∧ console_log_line ts (lit "EXTERNAL_API_CALL") (JObj fields) ∈ console w'
    ∧ get fields (lit "headers") = Some (JObj hs)
    ∧ get hs (lit "x-cg-demo-api-key") = Some (JStr k).
Proof.
  intros Hk.
  destruct (run_proxy_effect E c w)
    as (w' & ls & Hrun & _ & Hcons & _ & ts & fields & Hin & Hget).
  eexists _, w', ts, fields, _. split; [exact Hrun|]. split.
  { rewrite Hcons. apply elem_of_app. by right. }
  split; [exact Hget|]. unfold CG_HEADER. rewrite Hk. reflexivity.
Qed.

Lemma api_key_is_logged_witness :
  ∃ r w' ts fields hs,
    run_proxy sample_env CallSupportedCurrencies sample_world = (inr r, w')
    ∧ console_log_line ts (lit "EXTERNAL_API_CALL") (JObj fields) ∈ console w'
    ∧ get fields (lit "headers") = Some (JObj hs)
    ∧ get hs (lit "x-cg-demo-api-key") = Some (JStr (lit "demo-key")).
Proof.
  apply (api_key_is_logged sample_env CallSupportedCurrencies sample_world
           (lit "demo-key")).
  reflexivity.
Defined.

(** ** The first version *)

Lemma run_tool_v1_effect E c w :
  ∃ w',
    run_tool_v1 E c w
    = (inr match with_logging c with
           | CallHello => text_envelope (lit "hello")
           | CallProxy p =>
               match payload (answer E w p) with
               | Some d => text_envelope (JSON_stringify d)
               | None => failure_envelope (failure_message p)
               end
           end, w')
    ∧ sent w' = sent w ++ requests_of E (with_logging c)
    ∧ ticks w' = ticks w
    ∧ console w'
      = console w ++
          match with_logging c with
          | CallHello => []
          | CallProxy p =>
              match settle (answer E w p) with
              | inl e => [console_error_line (error_label p) e]
              | inr _ => []
              end
          end.
Proof.
  destruct c as [| |a]; cbn [run_tool_v1 with_logging requests_of].
  - exists w. by rewrite !app_nil_r.
  - cbv [getSupportedCurrencies_v1 try_catch console_error write_console axios_get
         mbind M_bind mret M_ret payload answer request_of].
    cbn [sent console ticks].
    destruct (settle _); cbn [sent console ticks]; eexists;
      rewrite ?app_nil_r; by repeat split.
  - cbv [getCoinPrice_v1 try_catch console_error write_console axios_get
         mbind M_bind mret M_ret payload answer request_of getCoinPrice_params].
    cbn [sent console ticks].
    destruct (settle _); cbn [sent console ticks]; eexists;
      rewrite ?app_nil_r; by repeat split.
Qed.

(** X5. Request logging changed neither the result nor the traffic:
    each of the three tools of the first version returns the envelope
    and issues the requests that its successor with logging does, in
    every environment and world. *)
Theorem logging_preserves_behaviour E c w :
  (run_tool_v1 E c w).1 = (run_tool E (with_logging c) w).1
  ∧ sent (run_tool_v1 E c w).2 = sent (run_tool E (with_logging c) w).2.
Proof.
  destruct (run_tool_v1_effect E c w) as (w1 & -> & Hsent1 & _).
  cbn [fst snd]. rewrite Hsent1.
  destruct c as [| |a]; cbn [with_logging run_tool requests_of].
  - destruct (hello_run E w) as (w2 & Hrun & Hsent). rewrite Hrun. cbn [fst snd].
    by rewrite Hsent, app_nil_r.
  - destruct (run_proxy_effect E CallSupportedCurrencies w)
      as (w2 & ls & Hrun & Hsent & _).
    rewrite Hrun. cbn [fst snd]. by rewrite Hsent.
  - destruct (run_proxy_effect E (CallCoinPrice a) w) as (w2 & ls & Hrun & Hsent & _).
    rewrite Hrun. cbn [fst snd]. by rewrite Hsent.
Qed.

(** X6. The first version is silent on success: a call writes one
    line to the console, the [console.error] line with the error, when
    the upstream call fails and nothing otherwise, and it never reads
    the clock. *)
Theorem first_version_console E c w :
  ∃ r w',
    run_tool_v1 E c w = (inr r, w')
    ∧ ticks w' = ticks w
    ∧ console w'
      = console w ++
          match with_logging c with
          | CallHello => []
          | CallProxy p =>
              match settle (answer E w p) with
              | inl e => [console_error_line (error_label p) e]
              | inr _ => []
              end
          end.
Proof.
  destruct (run_tool_v1_effect E c w) as (w' & Hrun & _ & Hticks & Hcons). eauto 10.
Qed.

(** ** Argument schemas *)

Lemma field_optional_string ps k :
  (∃ o, field ps k (z_optional z_string) = inr o) ↔ string_or_absent (get ps k).
Proof.
  unfold field, z_optional, z_string, string_or_absent.
  destruct (get ps k) as [[| | |s| |]|]; cbn; split;
    try (intros [? [=]]); try (intros [[=]|[? [=]]]); eauto.
Qed.

Lemma field_default_string ps k d :
  (∃ s, field ps k (z_default z_string d) = inr s) ↔ string_or_absent (get ps k).
Proof.
  unfold field, z_default, z_string, string_or_absent.
  destruct (get ps k) as [[| | |s| |]|]; cbn; split;
    try (intros [? [=]]); try (intros [[=]|[? [=]]]); eauto.
Qed.

(** X7. [getCoinPrice] accepts its arguments exactly when they are an
    object in which each of [ids], [names], [symbols], [vs_currencies]
    is absent or a string: a number, a boolean, [null], an array or an
    object in one of these places is refused, and so are arguments that
    are not an object. Other properties of the object do not matter. *)
Theorem getCoinPrice_schema_accepts_iff arguments :
  (∃ a, getCoinPrice_schema arguments = inr a)
  ↔ ∃ ps, arguments = Some (JObj ps)
          ∧ string_or_absent (get ps (lit "ids"))
          ∧ string_or_absent (get ps (lit "names"))
          ∧ string_or_absent (get ps (lit "symbols"))
          ∧ string_or_absent (get ps (lit "vs_currencies")).
Proof.
  split.
  - intros [a Ha]. destruct arguments as [[| | | | |ps]|]; try done.
    exists ps. split; [done|]. cbn [getCoinPrice_schema] in Ha.
    destruct (field ps (lit "ids") (z_optional z_string)) as [|i] eqn:Hi; [done|].
    destruct (field ps (lit "names") (z_optional z_string)) as [|n] eqn:Hn; [done|].
    destruct (field ps (lit "symbols") (z_optional z_string)) as [|s] eqn:Hs; [done|].
    destruct (field ps (lit "vs_currencies") (z_default z_string (lit "usd")))
      as [|v] eqn:Hv; [done|].
    split; [apply field_optional_string; eauto|].
    split; [apply field_optional_string; eauto|].
    split; [apply field_optional_string; eauto|].
    eapply field_default_string; eauto.
  - intros (ps & -> & Hi & Hn & Hs & Hv).
    apply field_optional_string in Hi as [i Hi], Hn as [n Hn], Hs as [s Hs].
    apply (field_default_string _ _ (lit "usd")) in Hv as [v Hv].
    cbn [getCoinPrice_schema]. rewrite Hi, Hn, Hs, Hv. by eexists.
Qed.

Lemma holdings_schema_coin arguments c :
  getPublicCompaniesHoldings_schema arguments = inr c →
  c = lit "bitcoin" ∨ c = lit "ethereum".
Proof.
  destruct arguments as [[| | | | |ps]|]; try done.
  cbn [getPublicCompaniesHoldings_schema]. unfold field, z_enum.
  destruct (get ps (lit "coin_id")) as [[| | |s| |]|]; try done.
  case_bool_decide as Hin; [|done]. intros [= <-].
  apply elem_of_cons in Hin as [->|Hin]; [by left|].
  apply elem_of_cons in Hin as [->|Hin]; [by right|].
  by apply elem_of_nil in Hin.
Qed.

(** X8. [getPublicCompaniesHoldings] accepts its arguments exactly
    when they are an object whose [coin_id] is the string [bitcoin] or
    the string [ethereum], and the parsed value is that string. *)
Theorem holdings_schema_accepts_iff arguments c :
  getPublicCompaniesHoldings_schema arguments = inr c
  ↔ ∃ ps, arguments = Some (JObj ps)
          ∧ get ps (lit "coin_id") = Some (JStr c)
          ∧ (c = lit "bitcoin" ∨ c = lit "ethereum").
Proof.
  split.
  - destruct arguments as [[| | | | |ps]|]; try done.
    cbn [getPublicCompaniesHoldings_schema]. unfold field, z_enum.
    destruct (get ps (lit "coin_id")) as [[| | |s| |]|] eqn:Hget; try done.
    case_bool_decide as Hin; [|done]. intros [= <-]. exists ps.
    split; [done|]. split; [done|].
    apply elem_of_cons in Hin as [->|Hin]; [by left|].
    apply elem_of_cons in Hin as [->|Hin]; [by right|].
    by apply elem_of_nil in Hin.
  - intros (ps & -> & Hget & Hc).
    cbn [getPublicCompaniesHoldings_schema]. unfold field, z_enum. rewrite Hget.
    by destruct Hc as [-> | ->].
Qed.

(** X9. The coin whose holdings are requested is spliced into the
    URL, and the schema lets two values through: a validated call of
    [getPublicCompaniesHoldings] issues one request, to one of two
    URLs. *)
Theorem holdings_request_urls E arguments c w :
  getPublicCompaniesHoldings_schema arguments = inr c →
  ∃ r w' req,
    getPublicCompaniesHoldings E c w = (inr r, w')
    ∧ sent w' = sent w ++ [req]
    ∧ (url req = lit "https://api.coingecko.com/api/v3/companies/public_treasury/bitcoin"
       ∨ url req
         = lit "https://api.coingecko.com/api/v3/companies/public_treasury/ethereum").
Proof.
  intros Hcoin%holdings_schema_coin.
  destruct (run_proxy_effect E (CallPublicCompaniesHoldings c) w)
    as (w' & ls & Hrun & Hsent & _).
  eexists _, w', _. split; [exact Hrun|]. split; [exact Hsent|].
  cbn [request_of url]. by destruct Hcoin as [-> | ->]; [left|right].
Qed.

Lemma holdings_request_urls_witness :
  ∃ r w' req,
    getPublicCompaniesHoldings sample_env (lit "ethereum") sample_world = (inr r, w')
    ∧ sent w' = sent sample_world ++ [req]
    ∧ (url req = lit "https://api.coingecko.com/api/v3/companies/public_treasury/bitcoin"
       ∨ url req
         = lit "https://api.coingecko.com/api/v3/companies/public_treasury/ethereum").
Proof.
  apply (holdings_request_urls sample_env
           (Some (JObj [(lit "coin_id", JStr (lit "ethereum"))]))
           (lit "ethereum") sample_world).
  reflexivity.
Defined.

(** ** Sessions and the objects of earlier requests *)




(** * The text of a log line

    ** Numerals before white space

    The lemmas on numerals once more, for a numeral that is followed by
    any character that cannot continue it: in an indented text a numeral
    may be followed by a line break. *)

Lemma ends_numeral_stops_digits rest : ends_numeral rest → stops_digits rest.
Proof. destruct rest as [|c r]; [done|]. by intros [? _]. Qed.

Lemma parse_frac_end rest : ends_numeral rest → parse_frac rest = Some ([], rest).
Proof.
  destruct rest as [|c r]; [done|]. intros (_ & H46 & _). cbn [parse_frac].
  by destruct (N.eqb_spec c 46).
Qed.

Lemma parse_exp_end rest : ends_numeral rest → parse_exp rest = Some (0%Z, rest).
Proof.
  destruct rest as [|c r]; [done|]. intros (_ & _ & H101 & H69). cbn [parse_exp].
  by destruct (N.eqb_spec c 101), (N.eqb_spec c 69).
Qed.

Section numeral_before_space.
Variables (neg : bool) (ds rest : jsstring).
Hypothesis Hc : canonical_digits ds.
Hypothesis Hrest : ends_numeral rest.

Let Hstop : stops_digits rest := ends_numeral_stops_digits rest Hrest.
Let Hall : Forall (fun d => d < 10) ds := proj1 Hc.
Let Hhd : ∃ d, head ds = Some d ∧ d ≠ 0 := proj1 (proj2 Hc).

(** Step 6: the digits followed by zeros. *)
Lemma parse_integer_form_end m :
  parse_unsigned neg ((map digit_char ds ++ zeros m) ++ rest)
  = Some (Finite neg ds (Z.of_nat (length ds) + Z.of_nat m), rest).
Proof.
  unfold parse_unsigned. rewrite zeros_digits, <- map_app.
  rewrite parse_int_canonical;
    [| |by apply Forall_app; auto using Forall_repeat_digit|done].
  2:{ destruct Hhd as (d0 & Hd0 & ?). exists d0. split; [|done].
      by destruct ds. }
  step_bind. rewrite parse_frac_end by done. step_bind.
  rewrite parse_exp_end by done. step_bind. f_equal. f_equal.
  apply (number_of_numeral_canonical _ _ _ _ ds 0 m); [done|by rewrite app_nil_r|].
  rewrite length_app, repeat_length. lia.
Qed.

(** Step 7: a decimal point after the first [i] digits. *)
Lemma parse_point_form_end i :
  (0 < i < length ds)%nat →
  parse_unsigned neg
    ((take i (map digit_char ds) ++ 46 :: drop i (map digit_char ds)) ++ rest)
  = Some (Finite neg ds (Z.of_nat i), rest).
Proof.
  intros Hi. unfold parse_unsigned.
  rewrite firstn_map, skipn_map, <- app_assoc. cbn [app].
  rewrite parse_int_canonical.
  - step_bind. rewrite parse_frac_canonical.
    + step_bind. rewrite parse_exp_end by done. step_bind. f_equal. f_equal.
      apply (number_of_numeral_canonical _ _ _ _ ds 0 0); [done| |].
      * by rewrite take_drop, app_nil_r.
      * rewrite length_take. lia.
    + intros Hnil. apply (f_equal length) in Hnil. rewrite length_drop in Hnil.
      simpl in Hnil. lia.
    + by apply Forall_drop.
    + done.
  - destruct Hhd as (d0 & Hd0 & ?). exists d0. split; [|done].
    destruct ds; [done|]. destruct i; [lia|done].
  - by apply Forall_take.
  - apply stops_digits_dot.
Qed.

(** Step 8: [0.], zeros, the digits. *)
Lemma parse_small_form_end m :
  parse_unsigned neg ((48 :: 46 :: zeros m ++ map digit_char ds) ++ rest)
  = Some (Finite neg ds (- Z.of_nat m), rest).
Proof.
  unfold parse_unsigned. cbn [app]. rewrite parse_int_zero. step_bind.
  rewrite zeros_digits, <- map_app, parse_frac_canonical.
  - step_bind. rewrite parse_exp_end by done. step_bind. f_equal. f_equal.
    apply (number_of_numeral_canonical _ _ _ _ ds (S m) 0); [done| |].
    + by rewrite app_nil_r.
    + simpl. lia.
  - destruct Hhd as (d0 & Hd0 & ?). by destruct ds, m.
  - apply Forall_app; auto using Forall_repeat_digit.
  - done.
Qed.

(** Steps 9 and 10: one digit, the others after a point, an exponent. *)
Lemma parse_exponent_form_end (e : Z) :
  parse_unsigned neg
    (match map digit_char ds with
     | [] => []
     | [c] => c :: 101 :: (if (0 <=? e)%Z then 43 else 45) :: decimal (Z.abs_N e)
     | c :: rest0 =>
         c :: 46 :: rest0 ++ 101 :: (if (0 <=? e)%Z then 43 else 45)
           :: decimal (Z.abs_N e)
     end ++ rest)
  = Some (Finite neg ds (e + 1), rest).
Proof.
  destruct (canonical_digits_cons ds Hc) as (d & tl & Hds & Hd & Hd10 & Htl).
  unfold parse_unsigned.
  assert (Hint : ∀ r, stops_digits r →
            parse_int (digit_char d :: r) = Some ([d], r)).
  { intros r Hr. by apply (parse_int_digits d [] r); [|constructor|]. }
  assert (Hnum : ∀ frac, d :: frac = ds →
            number_of_numeral neg [d] frac e = Finite neg ds (e + 1)).
  { intros frac Hfrac.
    apply (number_of_numeral_canonical _ _ _ _ ds 0 0); [done| |simpl; lia].
    by rewrite app_nil_r, <- Hfrac. }
  rewrite Hds. cbn [map]. destruct tl as [|d1 tl]; cbn [map app].
  - rewrite Hint by apply stops_digits_e. step_bind.
    rewrite parse_frac_exponent. step_bind.
    rewrite parse_exp_decimal by done. step_bind.
    rewrite Hnum by done. by rewrite Hds.
  - rewrite Hint by apply stops_digits_dot. step_bind.
    rewrite <- app_assoc. cbn [app].
    change (46 :: digit_char d1 :: map digit_char tl ++ ?r)
      with (46 :: map digit_char (d1 :: tl) ++ r).
    rewrite (parse_frac_digits d1 tl) by (done || apply stops_digits_e).
    step_bind. rewrite parse_exp_decimal by done. step_bind.
    rewrite Hnum by done. by rewrite Hds.
Qed.

Lemma parse_unsigned_toString_end n :
  parse_unsigned neg (Number_toString_pos ds n ++ rest) = Some (Finite neg ds n, rest).
Proof.
  pose proof (parse_exponent_form_end (n - 1)) as Hexp.
  replace (n - 1 + 1)%Z with n in Hexp by lia.
  assert (1 ≤ length ds)%nat as Hlen.
  { destruct Hhd as (d & Hd & _). destruct ds; [done|simpl; lia]. }
  unfold Number_toString_pos.
  destruct (Z.leb_spec (Z.of_nat (length ds)) n) as [Hkn|Hkn];
    destruct (Z.leb_spec n 21) as [H21|H21];
    destruct (Z.ltb_spec 0 n) as [H0|H0];
    destruct (Z.ltb_spec (-6) n) as [H6|H6];
    destruct (Z.leb_spec n 0) as [Hn0|Hn0];
    cbn [andb]; try lia; try exact Hexp.
  - rewrite parse_integer_form_end. do 3 f_equal. lia.
  - rewrite parse_point_form_end by lia. do 3 f_equal. lia.
  - rewrite parse_small_form_end. do 3 f_equal. lia.
Qed.
End numeral_before_space.

Lemma follows_ends_numeral rest : follows rest → ends_numeral rest.
Proof. destruct rest as [|c r]; [done|]. by intros [->|[->|[->| ->]]]. Qed.

Lemma parse_value_number_end x fuel rest :
  wf_number x → ends_numeral rest →
  parse_value (S fuel) (JSON_stringify (JNum x) ++ rest) = Some (jsonify_number x, rest).
Proof.
  intros Hwf Hrest. destruct x as [| neg | neg | neg ds n]; try done.
  - cbn [JSON_stringify is_finite Number_toString].
    change (lit "0" ++ rest) with (48 :: rest).
    rewrite parse_value_numeral by (by left).
    cbn [parse_number]. change (48 =? 45) with false. cbv iota.
    unfold parse_unsigned. rewrite parse_int_zero. step_bind.
    rewrite parse_frac_end by done. step_bind.
    rewrite parse_exp_end by done. done.
  - cbn [JSON_stringify is_finite Number_toString jsonify_number].
    simpl in Hwf.
    destruct (Number_toString_pos_head ds n Hwf) as (c & r & Htext & Hdig).
    pose proof (parse_unsigned_toString_end neg ds rest Hwf Hrest n) as Hparse.
    rewrite <- app_assoc. destruct neg; cbn [app].
    + rewrite parse_value_numeral by (by right). cbn [parse_number].
      change (45 =? 45) with true. cbv iota. by rewrite Hparse.
    + rewrite Htext in *. cbn [app] in *.
      rewrite parse_value_numeral by (by left). cbn [parse_number].
      destruct (N.eqb_spec c 45) as [->|_]; [done|]. by rewrite Hparse.
Qed.

(** ** White space between the tokens *)

Lemma skip_ws_app ws s :
  Forall (λ c, is_ws c = true) ws → skip_ws (ws ++ s) = skip_ws s.
Proof.
  induction 1 as [|c ws Hc _ IH]; [done|]. cbn [app skip_ws]. by rewrite Hc.
Qed.

Lemma line_break_is_ws depth :
  Forall (λ c, is_ws c = true) (10 :: indent depth).
Proof.
  constructor; [done|]. unfold indent.
  induction (2 * depth)%nat as [|k IH]; constructor; done.
Qed.

Lemma parse_value_ws fuel ws s :
  Forall (λ c, is_ws c = true) ws → parse_value fuel (ws ++ s) = parse_value fuel s.
Proof. intros Hws. destruct fuel; [done|]. cbn [parse_value]. by rewrite skip_ws_app. Qed.

Lemma parse_value_space fuel s : parse_value fuel (32 :: s) = parse_value fuel s.
Proof. apply (parse_value_ws fuel [32] s). by constructor. Qed.

Lemma parse_elements_ws fuel ws s :
  Forall (λ c, is_ws c = true) ws →
  parse_elements fuel (ws ++ s) = parse_elements fuel s.
Proof.
  intros Hws. destruct fuel; [done|]. cbn [parse_elements].
  by rewrite parse_value_ws.
Qed.

Lemma parse_members_ws fuel acc ws s :
  Forall (λ c, is_ws c = true) ws →
  parse_members fuel acc (ws ++ s) = parse_members fuel acc s.
Proof.
  intros Hws. destruct fuel; [done|]. cbn [parse_members]. by rewrite skip_ws_app.
Qed.

Lemma skip_line_break depth c r :
  is_ws c = false → skip_ws (10 :: indent depth ++ c :: r) = c :: r.
Proof.
  intros Hc. change (10 :: indent depth ++ c :: r) with ((10 :: indent depth) ++ c :: r).
  rewrite skip_ws_app by apply line_break_is_ws. by apply skip_ws_head.
Qed.

(** ** The shape of an indented text *)

Lemma indented_array depth v vs :
  JSON_stringify_indented depth (JArr (v :: vs))
  = 91 :: 10 :: indent (S depth) ++ indented_elements depth (v :: vs)
      ++ 10 :: indent depth ++ [93].
Proof. reflexivity. Qed.

Lemma indented_object depth kv ps :
  JSON_stringify_indented depth (JObj (kv :: ps))
  = 123 :: 10 :: indent (S depth) ++ indented_members depth (kv :: ps)
      ++ 10 :: indent depth ++ [125].
Proof. reflexivity. Qed.

Lemma indented_elements_cons depth v vs tail :
  indented_elements depth (v :: vs) ++ tail
  = JSON_stringify_indented (S depth) v ++
      match vs with
      | [] => tail
      | _ :: _ => 44 :: 10 :: indent (S depth) ++ indented_elements depth vs ++ tail
      end.
Proof.
  destruct vs as [|v' vs]; [done|].
  change (indented_elements depth (v :: v' :: vs))
    with (JSON_stringify_indented (S depth) v
            ++ 44 :: 10 :: indent (S depth) ++ indented_elements depth (v' :: vs)).
  by repeat (rewrite <- app_assoc || cbn [app]).
Qed.

Lemma indented_members_cons depth k v ps tail :
  indented_members depth ((k, v) :: ps) ++ tail
  = 34 :: quote_units k ++ 34 :: 58 :: 32 :: JSON_stringify_indented (S depth) v ++
      match ps with
      | [] => tail
      | _ :: _ => 44 :: 10 :: indent (S depth) ++ indented_members depth ps ++ tail
      end.
Proof.
  destruct ps as [|kv' ps].
  - cbn [indented_members]. unfold QuoteJSONString.
    by repeat (rewrite <- app_assoc || cbn [app]).
  - change (indented_members depth ((k, v) :: kv' :: ps))
      with (QuoteJSONString k ++ 58 :: 32 :: JSON_stringify_indented (S depth) v
              ++ 44 :: 10 :: indent (S depth) ++ indented_members depth (kv' :: ps)).
    unfold QuoteJSONString. by repeat (rewrite <- app_assoc || cbn [app]).
Qed.

Lemma indented_head depth v :
  wf_value v → ∃ c r, JSON_stringify_indented depth v = c :: r ∧ opens_value c.
Proof.
  intros Hwf. destruct v as [|b|x|s|[|v vs]|[|kv ps]];
    try (eexists _, _; split; [reflexivity|done]).
  - apply (stringify_head (JBool b) Hwf).
  - apply (stringify_head (JNum x) Hwf).
Qed.

(** ** Reading an indented text *)

Lemma parse_elements_indented depth vs : ∀ v fuel rest,
  Forall reads_back_indented (v :: vs) → Forall wf_value (v :: vs) →
  (list_sum (map (fun v => S (size v)) (v :: vs)) ≤ fuel)%nat →
  parse_elements fuel
    (indented_elements depth (v :: vs) ++ 10 :: indent depth ++ 93 :: rest)
  = Some (map jsonify (v :: vs), rest).
Proof.
  induction vs as [|v' vs IH]; intros v fuel rest Hback Hwf Hfuel;
    apply Forall_cons in Hback as [Hv Hback]; apply Forall_cons in Hwf as [Hwv Hwf];
    cbn [map list_sum fold_right] in Hfuel; (destruct fuel as [|f]; [lia|]);
    rewrite indented_elements_cons; cbn [parse_elements].
  - rewrite (Hv Hwv (S depth) f (10 :: _)); [|by repeat right|lia].
    step_bind. by rewrite skip_line_break.
  - rewrite (Hv Hwv (S depth) f (44 :: _)); [|by left|lia].
    step_bind. rewrite skip_ws_head by done.
    change (44 =? 44) with true. cbv iota.
    change (10 :: indent (S depth) ++ ?s) with ((10 :: indent (S depth)) ++ s).
    rewrite parse_elements_ws by apply line_break_is_ws.
    rewrite IH; [done|done|done|]. cbn [map list_sum fold_right]. lia.
Qed.

Lemma parse_members_indented depth ps : ∀ kv fuel acc rest,
  Forall (fun kv => reads_back_indented kv.2) (kv :: ps) →
  Forall (fun kv => wf_value kv.2) (kv :: ps) →
  NoDup (acc.*1 ++ (kv :: ps).*1) →
  (list_sum (map (fun kv => S (size kv.2)) (kv :: ps)) ≤ fuel)%nat →
  parse_members fuel acc
    (indented_members depth (kv :: ps) ++ 10 :: indent depth ++ 125 :: rest)
  = Some (acc ++ map (fun kv => (kv.1, jsonify kv.2)) (kv :: ps), rest).
Proof.
  induction ps as [|kv' ps IH]; intros [k v] fuel acc rest Hback Hwf Hnd Hfuel;
    apply Forall_cons in Hback as [Hv Hback]; apply Forall_cons in Hwf as [Hwv Hwf];
    cbn [map list_sum fold_right] in Hfuel; (destruct fuel as [|f]; [lia|]);
    rewrite indented_members_cons; cbn [parse_members];
    rewrite skip_ws_head by done; change (34 =? 34) with true; cbv iota;
    rewrite parse_chars_Quote; step_bind; rewrite skip_ws_head by done;
    change (58 =? 58) with true; cbv iota; simpl in Hv, Hwv, Hfuel;
    rewrite parse_value_space;
    assert (k ∉ acc.*1) as Hfresh
      by (apply NoDup_app in Hnd as (_ & Hdis & _); intros Hin;
          apply (Hdis k Hin); rewrite fmap_cons; left).
  - rewrite (Hv Hwv (S depth) f (10 :: _)); [|by repeat right|lia].
    step_bind. rewrite skip_line_break by done.
    change (125 =? 44) with false. change (125 =? 125) with true. cbv iota.
    by rewrite obj_set_fresh.
  - rewrite (Hv Hwv (S depth) f (44 :: _)); [|by left|lia].
    step_bind. rewrite skip_ws_head by done.
    change (44 =? 44) with true. cbv iota.
    rewrite obj_set_fresh by done.
    change (10 :: indent (S depth) ++ ?s) with ((10 :: indent (S depth)) ++ s).
    rewrite parse_members_ws by apply line_break_is_ws.
    rewrite IH; [| done | done | | ].
    + by rewrite <- app_assoc.
    + rewrite fmap_app, <- app_assoc. exact Hnd.
    + cbn [map list_sum fold_right]. lia.
Qed.

Lemma parse_value_indented v : reads_back_indented v.
Proof.
  induction v as [|b|x|s|vs IH|ps IH] using value_nested_ind;
    intros Hwf depth fuel rest Hrest Hfuel;
    (destruct fuel as [|f]; [simpl in Hfuel; lia|]).
  - done.
  - by destruct b.
  - apply parse_value_number_end; [done|by apply follows_ends_numeral].
  - apply parse_value_string.
  - destruct vs as [|v vs]; [done|].
    rewrite indented_array. apply wf_array in Hwf.
    cbn [app parse_value]. rewrite skip_ws_head by done.
    change (91 =? 110) with false. change (91 =? 116) with false.
    change (91 =? 102) with false. change (91 =? 34) with false.
    change (91 =? 91) with true. cbv iota.
    repeat (rewrite <- app_assoc || cbn [app]).
    destruct (indented_head (S depth) v) as (c & r & Hc & Hws & Hc93 & _);
      [by inversion Hwf|].
    change (10 :: indent (S depth) ++ ?s) with ((10 :: indent (S depth)) ++ s).
    rewrite parse_elements_ws by apply line_break_is_ws.
    rewrite parse_elements_indented; [|done|done|simpl in *; lia].
    rewrite skip_ws_app by apply line_break_is_ws.
    rewrite indented_elements_cons, Hc. cbn [app]. rewrite skip_ws_head by done.
    by destruct (N.eqb_spec c 93).
  - destruct ps as [|[k v] ps]; [done|].
    rewrite indented_object. apply wf_object in Hwf as [Hnd Hwf].
    cbn [app parse_value]. rewrite skip_ws_head by done.
    change (123 =? 110) with false. change (123 =? 116) with false.
    change (123 =? 102) with false. change (123 =? 34) with false.
    change (123 =? 91) with false. change (123 =? 123) with true. cbv iota.
    repeat (rewrite <- app_assoc || cbn [app]).
    change (10 :: indent (S depth) ++ ?s) with ((10 :: indent (S depth)) ++ s).
    rewrite parse_members_ws by apply line_break_is_ws.
    rewrite parse_members_indented; [|done|done|done|simpl in *; lia].
    rewrite skip_ws_app by apply line_break_is_ws.
    rewrite indented_members_cons. by rewrite skip_ws_head.
Qed.

Lemma indented_length v : ∀ depth,
  wf_value v → (size v ≤ length (JSON_stringify_indented depth v))%nat.
Proof.
  induction v as [|b|x|s|vs IH|ps IH] using value_nested_ind; intros depth Hwf.
  - simpl. lia.
  - destruct b; simpl; lia.
  - destruct (stringify_head (JNum x) Hwf) as (c & r & Hc & _).
    change (JSON_stringify_indented depth (JNum x)) with (JSON_stringify (JNum x)).
    rewrite Hc. simpl. lia.
  - simpl. lia.
  - destruct vs as [|v0 vs0]; [simpl; lia|]. rewrite indented_array.
    apply wf_array in Hwf. cbn [size length]. rewrite !length_app. cbn [length].
    rewrite !length_app.
    enough (∀ vs, Forall (λ v, ∀ depth, wf_value v →
                      (size v ≤ length (JSON_stringify_indented depth v))%nat) vs →
              Forall wf_value vs →
              (list_sum (map (fun v => S (size v)) vs)
               ≤ S (length (indented_elements depth vs)))%nat) as Hsum.
    { specialize (Hsum (v0 :: vs0) IH Hwf). lia. }
    clear. intros vs IH Hwf. induction vs as [|v vs IHvs]; [simpl; lia|].
    apply Forall_cons in IH as [Hv IH], Hwf as [Hwv Hwf].
    specialize (IHvs IH Hwf). specialize (Hv (S depth) Hwv).
    destruct vs as [|v' vs].
    + simpl in *. lia.
    + change (indented_elements depth (v :: v' :: vs))
        with (JSON_stringify_indented (S depth) v
                ++ 44 :: 10 :: indent (S depth) ++ indented_elements depth (v' :: vs)).
      rewrite length_app. cbn [length]. rewrite length_app.
      cbn [map list_sum fold_right] in *. lia.
  - destruct ps as [|kv0 ps0]; [simpl; lia|]. rewrite indented_object.
    apply wf_object in Hwf as [_ Hwf]. cbn [size length]. rewrite !length_app.
    cbn [length]. rewrite !length_app.
    enough (∀ ps, Forall (λ kv, ∀ depth, wf_value kv.2 →
                      (size kv.2 ≤ length (JSON_stringify_indented depth kv.2))%nat) ps →
              Forall (λ kv, wf_value kv.2) ps →
              (list_sum (map (fun kv => S (size kv.2)) ps)
               ≤ S (length (indented_members depth ps)))%nat) as Hsum.
    { specialize (Hsum (kv0 :: ps0) IH Hwf). lia. }
    clear. intros ps IH Hwf. induction ps as [|[k v] ps IHps]; [simpl; lia|].
    apply Forall_cons in IH as [Hv IH], Hwf as [Hwv Hwf].
    specialize (IHps IH Hwf). specialize (Hv (S depth) Hwv). simpl in Hv.
    destruct ps as [|kv' ps].
    + cbn [indented_members map list_sum fold_right snd].
      rewrite length_app. cbn [length]. lia.
    + change (indented_members depth ((k, v) :: kv' :: ps))
        with (QuoteJSONString k ++ 58 :: 32 :: JSON_stringify_indented (S depth) v
                ++ 44 :: 10 :: indent (S depth) ++ indented_members depth (kv' :: ps)).
      rewrite length_app. cbn [length]. rewrite length_app. cbn [length].
      rewrite length_app.
      cbn [map list_sum fold_right snd] in *. lia.
Qed.

Lemma JSON_parse_indented v :
  wf_value v → JSON_parse (JSON_stringify_indented 0 v) = Some (jsonify v).
Proof.
  intros Hwf. unfold JSON_parse.
  pose proof (parse_value_indented v Hwf 0%nat
                (S (length (JSON_stringify_indented 0 v))) []) as H.
  rewrite app_nil_r in H. rewrite H; [done|done|].
  pose proof (indented_length v 0%nat Hwf). lia.
Qed.

(** X11. The text that [logRequest] prints for the details of a line,
    with its line breaks and indentation, is valid JSON, and it decodes
    to the value that the text without indentation decodes to. *)
Theorem log_text_decodes timestamp type details :
  wf_value details →
  ∃ head text,
    logRequest_output (console_log_line timestamp type details) = [head; text]
    ∧ JSON_parse text = Some (jsonify details)
    ∧ JSON_parse text = JSON_parse (JSON_stringify details).
Proof.
  intros Hwf. eexists _, _. split; [reflexivity|].
  rewrite JSON_parse_indented, JSON_parse_stringify by done. done.
Qed.

Lemma sample_details_wf : wf_value sample_details.
Proof.
  apply wf_object. split; [apply (bool_decide_unpack _); by vm_compute|].
  apply Forall_cons; split; [done|].
  apply Forall_cons; split.
  { apply wf_object. split; [apply (bool_decide_unpack _); by vm_compute|].
    apply Forall_cons; split; [done|]. apply Forall_cons; split; [done|]. constructor. }
  apply Forall_cons; split; [|constructor].
  apply wf_array. apply Forall_cons; split.
  { cbn. split; [repeat constructor|]. split; eexists; (split; [reflexivity|done]). }
  apply Forall_cons; split; [by apply wf_array|].
  apply Forall_cons; split; [done|]. constructor.
Qed.

Lemma log_text_decodes_witness :
  ∃ head text,
    logRequest_output
      (console_log_line (lit "2025-01-01T00:00:00.000Z") (lit "TOOL_CALL") sample_details)
    = [head; text]
    ∧ JSON_parse text = Some (jsonify sample_details)
    ∧ JSON_parse text = JSON_parse (JSON_stringify sample_details).
Proof.
  apply (log_text_decodes (lit "2025-01-01T00:00:00.000Z") (lit "TOOL_CALL")
           sample_details).
  apply sample_details_wf.
Defined.

(** ** The compact text has no control character *)

Lemma printable_app s t : printable s → printable t → printable (s ++ t).
Proof. apply Forall_app_2. Qed.

Lemma printable_cons c s : 32 ≤ c → printable s → printable (c :: s).
Proof. by constructor. Qed.

Lemma printable_digits ds : printable (map digit_char ds).
Proof. apply Forall_map, Forall_true. intros d. cbv [digit_char compose]. lia. Qed.

Lemma printable_zeros k : printable (zeros k).
Proof. rewrite zeros_digits. apply printable_digits. Qed.

Lemma printable_decimal x : printable (decimal x).
Proof. destruct (decimal_digits x) as (ds & -> & _). apply printable_digits. Qed.

Lemma printable_Number_toString_pos ds n : printable (Number_toString_pos ds n).
Proof.
  unfold Number_toString_pos. pose proof (printable_digits ds) as Hcs.
  destruct (_ && _).
  { apply printable_app; [done|apply printable_zeros]. }
  destruct (_ && _).
  { apply printable_app; [by apply Forall_take|].
    apply printable_cons; [lia|by apply Forall_drop]. }
  destruct (_ && _).
  { do 2 (apply printable_cons; [lia|]).
    apply printable_app; [apply printable_zeros|done]. }
  assert (Hsign : 32 ≤ (if (0 <=? n - 1)%Z then 43 else 45)) by (case_match; lia).
  destruct (map digit_char ds) as [|c [|c' rest]]; [constructor| |].
  - apply Forall_cons in Hcs as [Hc _].
    apply printable_cons; [done|]. apply printable_cons; [lia|].
    apply printable_cons; [done|]. apply printable_decimal.
  - apply Forall_cons in Hcs as [Hc Hrest].
    apply printable_cons; [done|]. apply printable_cons; [lia|].
    apply printable_app; [done|]. apply printable_cons; [lia|].
    apply printable_cons; [done|]. apply printable_decimal.
Qed.

Lemma printable_number x : printable (JSON_stringify (JNum x)).
Proof.
  destruct x as [|neg|neg|neg ds n]; cbn [JSON_stringify is_finite Number_toString].
  - by apply (bool_decide_unpack _).
  - by apply (bool_decide_unpack _).
  - by apply (bool_decide_unpack _).
  - apply printable_app; [|apply printable_Number_toString_pos].
    destruct neg; repeat constructor. lia.
Qed.

Lemma hex_char_printable d : 32 ≤ hex_char d.
Proof. unfold hex_char. case_match; lia. Qed.

Lemma printable_unicode_escape c : printable (unicode_escape c).
Proof.
  unfold unicode_escape. repeat (apply printable_cons; [first [apply hex_char_printable|lia]|]).
  constructor.
Qed.

Lemma printable_quote_units n : ∀ s, (length s ≤ n)%nat → printable (quote_units s).
Proof.
  induction n as [|n IH]; intros [|c r] Hlen; cbn [length] in Hlen; try lia;
    [constructor|constructor|].
  assert (Hr : printable (quote_units r)) by (apply IH; lia).
  cbn [quote_units].
  repeat (case_match; [do 2 (apply printable_cons; [lia|]); done|]).
  destruct (N.ltb_spec c 32) as [Hlt|Hge].
  { apply printable_app; [apply printable_unicode_escape|done]. }
  destruct (is_high_surrogate c).
  { destruct r as [|c2 r2]; [apply printable_unicode_escape|].
    destruct (is_low_surrogate c2) eqn:Hlow.
    - apply printable_cons; [done|]. apply printable_cons.
      + unfold is_low_surrogate in Hlow. apply andb_true_iff in Hlow as [Hlow _].
        apply N.leb_le in Hlow. lia.
      + apply IH. cbn [length] in Hlen. lia.
    - apply printable_app; [apply printable_unicode_escape|done]. }
  destruct (is_low_surrogate c).
  { apply printable_app; [apply printable_unicode_escape|done]. }
  by apply printable_cons.
Qed.

Lemma printable_Quote s : printable (QuoteJSONString s).
Proof.
  unfold QuoteJSONString. apply printable_cons; [lia|].
  apply printable_app; [by apply (printable_quote_units (length s))|].
  repeat constructor. lia.
Qed.

Lemma printable_stringify v : printable (JSON_stringify v).
Proof.
  induction v as [|b|x|s|vs IH|ps IH] using value_nested_ind.
  - by apply (bool_decide_unpack _).
  - destruct b; by apply (bool_decide_unpack _).
  - apply printable_number.
  - apply printable_Quote.
  - rewrite stringify_array. apply printable_cons; [lia|].
    apply printable_app; [|repeat constructor; lia].
    induction vs as [|v vs IHvs]; [constructor|].
    apply Forall_cons in IH as [Hv IH]. specialize (IHvs IH).
    destruct vs as [|v' vs]; [done|].
    change (stringify_elements (v :: v' :: vs))
      with (JSON_stringify v ++ 44 :: stringify_elements (v' :: vs)).
    apply printable_app; [done|]. by apply printable_cons; [lia|].
  - rewrite stringify_object. apply printable_cons; [lia|].
    apply printable_app; [|repeat constructor; lia].
    induction ps as [|[k v] ps IHps]; [constructor|].
    apply Forall_cons in IH as [Hv IH]. specialize (IHps IH). cbn [snd] in Hv.
    destruct ps as [|kv' ps].
    + cbn [stringify_members]. apply printable_app; [apply printable_Quote|].
      by apply printable_cons; [lia|].
    + change (stringify_members ((k, v) :: kv' :: ps))
        with (QuoteJSONString k ++ 58 :: JSON_stringify v
                ++ 44 :: stringify_members (kv' :: ps)).
      apply printable_app; [apply printable_Quote|].
      apply printable_cons; [lia|]. apply printable_app; [done|].
      by apply printable_cons; [lia|].
Qed.

(** X12. Whatever the upstream API answers, the text of the block that
    a proxy handler returns is one line: none of its code units is a
    line break or another control character. *)
Theorem proxy_text_is_one_line E c w :
  ∃ t w', run_proxy E c w = (inr (text_envelope t), w') ∧ printable t.
Proof.
  destruct (run_proxy_effect E c w) as (w' & ls & Hrun & _).
  destruct (payload (answer E w c)) as [d|].
  - exists (JSON_stringify d), w'. split; [done|apply printable_stringify].
  - eexists _, w'. split; [exact Hrun|apply printable_stringify].
Qed.

(** ** The details that the handlers log *)

Lemma strip_leading_zeros_spec ds : ∀ n,
  Forall (λ d, d < 10) ds →
  Forall (λ d, d < 10) (strip_leading_zeros ds n).1
  ∧ ∀ d, head (strip_leading_zeros ds n).1 = Some d → d ≠ 0.
Proof.
  induction ds as [|d ds IH]; intros n Hall; cbn [strip_leading_zeros].
  - by split.
  - apply Forall_cons in Hall as [Hd Hall]. destruct (N.eqb_spec d 0) as [->|Hne].
    + by apply IH.
    + split; [by constructor|]. cbn. by intros ? [= <-].
Qed.

Lemma strip_trailing_zeros_spec ds :
  Forall (λ d, d < 10) ds →
  Forall (λ d, d < 10) (strip_trailing_zeros ds)
  ∧ (strip_trailing_zeros ds ≠ [] → head (strip_trailing_zeros ds) = head ds)
  ∧ ∀ d, last (strip_trailing_zeros ds) = Some d → d ≠ 0.
Proof.
  induction ds as [|d ds IH]; intros Hall; cbn [strip_trailing_zeros].
  - by repeat split.
  - apply Forall_cons in Hall as [Hd Hall]. destruct (IH Hall) as (Hall' & _ & Hlast).
    destruct (strip_trailing_zeros ds) as [|d' r'].
    + destruct (N.eqb_spec d 0) as [->|Hne]; [by repeat split|].
      split; [by repeat constructor|]. split; [done|]. cbn. by intros ? [= <-].
    + split; [by constructor|]. split; [done|]. intros l Hl. by apply Hlast.
Qed.

Lemma number_of_numeral_wf neg int frac e :
  Forall (λ d, d < 10) (int ++ frac) → wf_number (number_of_numeral neg int frac e).
Proof.
  intros Hall. unfold number_of_numeral.
  destruct (strip_leading_zeros_spec (int ++ frac) (Z.of_nat (length int) + e) Hall)
    as [Hlead Hhead].
  destruct (strip_leading_zeros _ _) as [ds n]. cbn [fst] in Hlead, Hhead.
  destruct (strip_trailing_zeros_spec ds Hlead) as (Hall' & Hhd & Hlast).
  destruct (strip_trailing_zeros ds) as [|d' r'] eqn:Hstrip; [done|].
  cbn [wf_number]. split; [done|]. split.
  - exists d'. split; [done|]. apply Hhead. rewrite <- Hhd by done. done.
  - destruct (last (d' :: r')) as [l|] eqn:Hl.
    + exists l. split; [done|]. by apply Hlast.
    + by apply last_None in Hl.
Qed.

Lemma Number_of_N_wf x : wf_number (Number_of_N x).
Proof.
  unfold Number_of_N. destruct (decimal_digits x) as (ds & -> & Hall & _).
  rewrite <- (app_nil_r (map digit_char ds)), span_digits_app by done.
  apply number_of_numeral_wf. by rewrite app_nil_r.
Qed.

Lemma object_wf fields :
  NoDup fields.*1 → Forall (λ kv, from_option wf_value True kv.2) fields →
  wf_value (object fields).
Proof.
  intros Hnd Hall. apply wf_object. split.
  - eapply sublist_NoDup; [exact Hnd|]. clear.
    induction fields as [|[k [v|]] fields IH]; cbn; [done| |].
    + by apply sublist_skip.
    + by apply sublist_cons.
  - clear Hnd. induction Hall as [|[k [v|]] fields Hv _ IH]; cbn; [done| |done].
    by constructor.
Qed.

Lemma strings_value_wf fields : NoDup fields.*1 → wf_value (strings_value fields).
Proof.
  intros Hnd. apply object_wf.
  - replace ((map (λ '(k, o), (k, JStr <$> o)) fields).*1) with fields.*1; [done|].
    clear. induction fields as [|[k o] fields IH]; cbn; [done|]. by rewrite IH.
  - apply Forall_map, Forall_true. intros [k [s|]]; done.
Qed.

Ltac distinct_keys := apply (bool_decide_unpack _); by vm_compute.

Lemma CG_HEADER_wf E : wf_value (header_value (CG_HEADER E)).
Proof. apply strings_value_wf. distinct_keys. Qed.

Lemma envelope_value_wf t : wf_value (envelope_value (text_envelope t)).
Proof.
  apply wf_object. split; [distinct_keys|]. apply Forall_cons. split; [|constructor].
  apply wf_array. apply Forall_cons. split; [|constructor].
  apply wf_object. split; [distinct_keys|]. by repeat constructor.
Qed.

Lemma tool_line_wf ts type tool t :
  log_details_wf
    (console_log_line ts type
       (JObj [(lit "tool", JStr tool); (lit "result", envelope_value (text_envelope t))])).
Proof.
  apply wf_object. split; [distinct_keys|]. apply Forall_cons. split; [done|].
  apply Forall_cons. split; [apply envelope_value_wf|constructor].
Qed.

Lemma hello_log_lines E w :
  ∃ r w' ls, hello E w = (inr r, w') ∧ console w' = console w ++ ls
             ∧ Forall log_details_wf ls.
Proof.
  cbv [hello logRequest write_console toISOString mbind M_bind mret M_ret].
  cbn [sent console ticks]. eexists _, _, _. split; [reflexivity|].
  rewrite <- app_assoc. split; [reflexivity|].
  apply Forall_cons. split.
  { apply wf_object. split; [distinct_keys|]. apply Forall_cons. split; [done|].
    apply Forall_cons. split; [apply wf_object; split; constructor|constructor]. }
  apply Forall_cons. split; [apply tool_line_wf|constructor].
Qed.

Lemma proxy_log_lines E tool args url call_fields params label msg w :
  wf_value args →
  (∀ t0, wf_value (object ([(lit "url", Some (JStr url));
                            (lit "method", Some (JStr (lit "GET")));
                            (lit "headers", Some (header_value (CG_HEADER E)))]
                           ++ call_fields ++ [(lit "timestamp", Some (JStr t0))]))) →
  ∃ r w' ls,
    proxy E tool args url call_fields params label msg w = (inr r, w')
    ∧ console w' = console w ++ ls ∧ Forall log_details_wf ls.
Proof.
  intros Hargs Hcall.
  assert (Hfirst : ∀ ts, log_details_wf
            (console_log_line ts (lit "TOOL_CALL")
               (JObj [(lit "tool", JStr tool); (lit "args", args)]))).
  { intros ts. apply wf_object. split; [distinct_keys|]. by repeat constructor. }
  cbv [proxy try_catch logRequest console_error write_console toISOString
       axios_get mbind M_bind mret M_ret].
  cbn [sent console ticks].
  destruct (settle _) as [e|response]; cbn [sent console ticks];
    eexists _, _, _; (split; [reflexivity|]); rewrite <- ?app_assoc;
    (split; [reflexivity|]).
  - apply Forall_cons. split; [apply Hfirst|].
    apply Forall_cons. split; [apply Hcall|].
    apply Forall_cons. split.
    { apply wf_object. split; [distinct_keys|]. by repeat constructor. }
    apply Forall_cons. split; [done|].
    apply Forall_cons. split; [apply tool_line_wf|constructor].
  - apply Forall_cons. split; [apply Hfirst|].
    apply Forall_cons. split; [apply Hcall|].
    apply Forall_cons. split.
    { apply wf_object. split; [distinct_keys|].
      apply Forall_cons. split; [done|].
      apply Forall_cons. split; [apply Number_of_N_wf|].
      apply Forall_cons. split; [done|].
      apply Forall_cons. split; [apply Number_of_N_wf|].
      apply Forall_cons. split; [done|constructor]. }
    apply Forall_cons. split; [apply tool_line_wf|constructor].
Qed.

Lemma run_proxy_log_lines E c w :
  ∃ r w' ls, run_proxy E c w = (inr r, w') ∧ console w' = console w ++ ls
             ∧ Forall log_details_wf ls.
Proof.
  destruct c as [|a|coin_id]; cbn [run_proxy].
  - rewrite getSupportedCurrencies_proxy. apply proxy_log_lines; [apply wf_object; split; constructor|].
    intros t0. apply object_wf; [distinct_keys|].
    repeat (apply Forall_cons; split; [first [apply CG_HEADER_wf|done]|]). constructor.
  - rewrite getCoinPrice_proxy.
    assert (Hparams : wf_value (strings_value (getCoinPrice_params a))).
    { apply strings_value_wf. distinct_keys. }
    apply proxy_log_lines; [done|].
    intros t0. apply object_wf; [distinct_keys|].
    repeat (apply Forall_cons; split; [first [apply CG_HEADER_wf|done]|]). constructor.
  - rewrite getPublicCompaniesHoldings_proxy.
    apply proxy_log_lines.
    { apply wf_object. split; [distinct_keys|]. by repeat constructor. }
    intros t0. apply object_wf; [distinct_keys|].
    repeat (apply Forall_cons; split; [first [apply CG_HEADER_wf|done]|]). constructor.
Qed.

(** X13. Every text that [logRequest] prints during a tool call is
    valid JSON, whatever the arguments, the API key and the answer of
    the upstream API are: the details that the four handlers pass have
    no duplicate property and no number other than a status and a
    length, and the text decodes to them. *)
Theorem tool_log_texts_decode E c w :
  ∃ r w' ls,
    run_tool E c w = (inr r, w') ∧ console w' = console w ++ ls
    ∧ ∀ l head text,
        l ∈ ls → logRequest_output l = [head; text] →
        ∃ timestamp type details,
          l = console_log_line timestamp type details
          ∧ JSON_parse text = Some (jsonify details).
Proof.
  assert (∃ r w' ls, run_tool E c w = (inr r, w') ∧ console w' = console w ++ ls
                     ∧ Forall log_details_wf ls) as (r & w' & ls & Hrun & Hcons & Hwf).
  { destruct c as [|c]; [apply hello_log_lines|apply run_proxy_log_lines]. }
  exists r, w', ls. split; [done|]. split; [done|].
  intros l head text Hl Hout. rewrite Forall_forall in Hwf. specialize (Hwf l Hl).
  destruct l as [ts type details|label e]; [|done].
  cbn [logRequest_output] in Hout. injection Hout as _ <-.
  exists ts, type, details. split; [done|]. by apply JSON_parse_indented.
Qed.
